(** * Collection: an insertion-ordered map with sampling, filtering,
      structural and positional operations

    Shallow embedding of [src/Collection.ts] (class [Collection<K, V>
    extends Map<K, V>]) and the properties of its [random], [filter],
    [equal], [concat], [first], [firstKey], [last] and [lastKey] methods.

    Modelling conventions
    - A JavaScript [Map] is its list of entries in insertion order; keys are
      compared with a decidable equality (SameValueZero on the key type).
    - A value read from an array outside its bounds, and the value of
      [iterator.next().value] on an exhausted iterator, is [undefined]:
      such reads return [option V], [None] standing for [undefined].
    - [number] arguments are integers ([Z]); an absent argument is [None].
    - [Math.random()] is a stream of rationals of the unit interval
      [0 <= r < 1]; arithmetic on them is exact.
    - Objects that are compared by identity or mutated in place live in a
      heap indexed by locations.
    - The strict equality [===] on values is a parameter of [equal]: it is
      symmetric, but it is not reflexive ([NaN === NaN] is false) and it
      does not tell [+0] from [-0], so it is not the equality of Rocq. *)

From Stdlib Require Import QArith Qround.
From stdpp Require Import base option list gmap strings.

Local Open Scope Z_scope.

(** ** Results of a call *)

(** A call either returns a value or throws [new Error(msg)]. *)
Inductive outcome (A : Type) : Type :=
  | Return (a : A)
  | Throw (msg : string).
Arguments Return {A} a.
Arguments Throw {A} msg.

(** [Math.random()] yields a number [r] with [0 <= r < 1]. *)
Definition unit_interval (rnd : nat → Q) : Prop :=
  ∀ k, (0 <= rnd k)%Q ∧ (rnd k < 1)%Q.

(** [CollectionRandomOptions]: [{ unique?: boolean }]. *)
Record CollectionRandomOptions : Type := { unique : option bool }.

(** [CollectionFilterOptions]: [{ return?: 'array' | 'map' | 'collection' }]. *)
Record CollectionFilterOptions : Type := { return_ : option string }.

(** [CollectionEqualOptions]: [{ deep?: boolean }]. *)
Record CollectionEqualOptions : Type := { deep : option bool }.

(** What [random] hands back: [results[0]] or the array [results]. *)
Inductive random_result (V : Type) : Type :=
  | Single (v : option V)
  | Many (vs : list (option V)).
Arguments Single {V} v.
Arguments Many {V} vs.

(** What [filter] hands back: an array of pairs, a [Map] or a [Collection]. *)
Inductive filter_result (K V : Type) : Type :=
  | AsArray (pairs : list (K * V))
  | AsMap (m : list (K * V))
  | AsCollection (c : list (K * V)).
Arguments AsArray {K V} pairs.
Arguments AsMap {K V} m.
Arguments AsCollection {K V} c.

(** What [first], [firstKey], [last] and [lastKey] hand back: one item
    (possibly [undefined]) or an array of items. *)
Inductive positional_result (A : Type) : Type :=
  | Item (a : option A)
  | Items (l : list A).
Arguments Item {A} a.
Arguments Items {A} l.

Inductive algorithm : Type := AlgorithmA | AlgorithmB.

(** Locations of the [Collection] objects of a heap. *)
Abbreviation loc := positive (only parsing).

Module Collection.

(** *** The built-in [Map] the class extends *)

Section JsMap.
Context {K V : Type} `{!EqDecision K}.

Fixpoint map_get (m : list (K * V)) (k : K) : option V :=
  match m with
  | [] => None
  | (k', v) :: m' => if decide (k' = k) then Some v else map_get m' k
  end.

Definition map_has (m : list (K * V)) (k : K) : bool :=
  match map_get m k with Some _ => true | None => false end.

(** [Map.prototype.set]: an existing key keeps its position and gets the
    new value, a new key is appended. *)
Fixpoint map_set (m : list (K * V)) (k : K) (v : V) : list (K * V) :=
  match m with
  | [] => [(k, v)]
  | (k', v') :: m' =>
      if decide (k' = k) then (k', v) :: m' else (k', v') :: map_set m' k v
  end.

(** [new Map(iterable)] / [new Collection(iterable)]: every pair of the
    iterable is [set] in turn. *)
Definition of_entries (l : list (K * V)) : list (K * V) :=
  foldl (λ m e, map_set m e.1 e.2) [] l.

Definition entries (m : list (K * V)) : list (K * V) := m.
Definition keys (m : list (K * V)) : list K := m.*1.
Definition values (m : list (K * V)) : list V := m.*2.
Definition size (m : list (K * V)) : Z := Z.of_nat (length m).

(** The invariant of a [Map]: no key occurs twice. *)
Definition wf (m : list (K * V)) : Prop := NoDup (keys m).

(** [get empty(): boolean { return this.size === 0 }] *)
Definition empty (m : list (K * V)) : bool := bool_decide (size m = 0).
End JsMap.

(** *** Arrays *)

(** [array[i]] for an integer [i]: [undefined] outside the array. *)
Definition index {A : Type} (l : list A) (i : Z) : option A :=
  if i <? 0 then None else l !! Z.to_nat i.

(** A relative index of [Array.prototype.slice], clamped into [0, len]. *)
Definition relative_index (len i : Z) : Z :=
  if i <? 0 then Z.max (len + i) 0 else Z.min i len.

(** [array.slice(start, end)]; [end] absent means the length. *)
Definition slice {A : Type} (l : list A) (start : Z) (end_ : option Z) : list A :=
  let len := Z.of_nat (length l) in
  let k := relative_index len start in
  let final := match end_ with
               | None => len
               | Some e => relative_index len e
               end in
  take (Z.to_nat (final - k)) (drop (Z.to_nat k) l).

(** *** Sampler: [random(amount?, options?)] *)

Definition result_count {V : Type} (r : random_result V) : nat :=
  match r with Single _ => 1%nat | Many vs => length vs end.

Definition result_values {V : Type} (r : random_result V) : list (option V) :=
  match r with Single v => [v] | Many vs => vs end.

(** Modelled from the spec: [range] of [@src/utils/range] is not among the
    sources; Algorithm A "build[s] an index sequence [0..size]" with
    [range(size + 1)], so [range n] is [0, 1, ..., n - 1]. *)
Definition range (n : nat) : list nat := seq 0 n.

(** Modelled from the spec: [swap] of [@src/utils/swap] is not among the
    sources; Algorithm A "swap[s] it with the element at position [max]":
    the elements at the two positions are exchanged.  Both positions are
    inside the array at every call the sampler makes; an array is left as
    it is when one of them is not. *)
Definition swap (array : list nat) (x y : nat) : list nat :=
  match array !! x, array !! y with
  | Some a, Some b => <[x := b]> (<[y := a]> array)
  | _, _ => array
  end.

(** [size > 500 ? size > 1000 ? 15 : 50 : 80] *)
Definition threshold (size : Z) : Z :=
  if 500 <? size then (if 1000 <? size then 15 else 50) else 80.

(** [Math.floor(amount / size * 100)], in exact arithmetic. *)
Definition density (amount size : Z) : Z :=
  Qfloor (inject_Z amount / inject_Z size * 100)%Q.

(** [Math.floor(amount / size * 100) > (size > 500 ? ... )] *)
Definition largeAmount (amount size : Z) : bool :=
  threshold size <? density amount size.

(** The two assignments that normalise [amount]:
    [if (amount && amount > size) amount = size] and
    [if (!amount || (amount && amount < 1)) amount = 1]. *)
Definition normalize_amount (size : Z) (amount : option Z) : Z :=
  let truthy (a : option Z) :=
    match a with Some n => bool_decide (n ≠ 0) | None => false end in
  let gt (a : option Z) (n : Z) :=
    match a with Some x => n <? x | None => false end in
  let lt (a : option Z) (n : Z) :=
    match a with Some x => x <? n | None => false end in
  let amount1 := if truthy amount && gt amount size then Some size else amount in
  let amount2 :=
    if negb (truthy amount1) || (truthy amount1 && lt amount1 1)
    then Some 1 else amount1 in
  default 1 amount2.

(** [options: CollectionRandomOptions = {}] followed by
    [if (typeof options.unique !== 'boolean') options.unique = !!options.unique]. *)
Definition unique_flag (options : option CollectionRandomOptions) : bool :=
  match options with
  | Some o => default false (unique o)
  | None => false
  end.

(** [if (largeAmount && options.unique) { ... } else { ... }] *)
Definition select_algorithm (amount size : Z) (uniq : bool) : algorithm :=
  if largeAmount amount size && uniq then AlgorithmA else AlgorithmB.

(** The message of the error [random] throws on an empty collection. *)
Definition empty_collection_error : string :=
  "Collection#random: Cannot get random elements from the empty collection".

Section Sampler.
(** The successive results of [Math.random()]. *)
Variable rnd : nat → Q.

(** [Math.floor(Math.random() * max)] at the [k]-th draw. *)
Definition random_index (k : nat) (max : nat) : nat :=
  Z.to_nat (Qfloor (rnd k * inject_Z (Z.of_nat max))%Q).

(** The first loop of Algorithm A, [iters] iterations left:
    [num = Math.floor(Math.random() * max);
     randomNumbers = swap(randomNumbers, num, max); max -= 1]. *)
Fixpoint shuffle (iters : nat) (k : nat) (max : nat)
    (randomNumbers : list nat) : list nat :=
  match iters with
  | O => randomNumbers
  | S iters' =>
      let num := random_index k max in
      shuffle iters' (S k) (max - 1) (swap randomNumbers num max)
  end.

(** Algorithm A: the slots [randomNumbers[i]] read by the second loop,
    [for (let i = 0; i < amount; i++) results.push(arr[randomNumbers[i]])];
    [amount ≤ size], so every [i] is a position of [randomNumbers]. *)
Definition slots_A (size amount : nat) : list nat :=
  let randomNumbers := shuffle size 0 size (range (size + 1)) in
  (λ i, default 0%nat (randomNumbers !! i)) <$> seq 0 amount.

(** Algorithm B with [unique]: the loop
    [for (let i = 0; i < amount; i++)
       random.indexOf(num) > -1 ? i -= 1 : random.push(num)].
    [fuel] bounds the number of draws; [None] when it runs out. *)
Fixpoint reject (fuel : nat) (size : nat) (amount : Z) (k : nat) (i : Z)
    (random : list nat) : option (list nat) :=
  if bool_decide (i < amount) then
    match fuel with
    | O => None
    | S fuel' =>
        let num := random_index k size in
        if bool_decide (num ∈ random)
        then reject fuel' size amount (S k) (i - 1 + 1) random
        else reject fuel' size amount (S k) (i + 1) (random ++ [num])
    end
  else Some random.

(** Algorithm B without [unique]:
    [for (let i = 0; i < amount; i++) random.push(Math.floor(Math.random() * size))]. *)
Definition draws (size amount : nat) : list nat :=
  (λ k, random_index k size) <$> seq 0 amount.

(** The slot indices chosen by a call, by either algorithm. *)
Definition random_slots (fuel : nat) (size : nat) (amount : Z) (uniq : bool)
    : option (list nat) :=
  match select_algorithm amount (Z.of_nat size) uniq with
  | AlgorithmA => Some (slots_A size (Z.to_nat amount))
  | AlgorithmB =>
      if uniq then reject fuel size amount 0 0 []
      else Some (draws size (Z.to_nat amount))
  end.

Context {K V : Type}.

(** [random(amount?, options = {})].  [fuel] bounds the draws of the
    rejection loop; the result is [None] when the loop is still running
    after [fuel] draws.  [results[0]] is [undefined] on an empty array. *)
Definition random (fuel : nat) (c : list (K * V)) (amount : option Z)
    (options : option CollectionRandomOptions)
    : option (outcome (random_result V)) :=
  let sz := size c in
  if sz <? 1 then Some (Throw empty_collection_error)
  else
    let amount := normalize_amount sz amount in
    let uniq := unique_flag options in
    let arr := values c in
    slots ← random_slots fuel (length c) amount uniq;
    let results := (λ r, arr !! r) <$> slots in
    Some (Return (if amount <=? 1 then Single (mjoin (results !! 0%nat))
                  else Many results)).
End Sampler.

(** *** Filter: [filter(filter, options)] *)

Section Filter.
Context {K V : Type} `{!EqDecision K}.

(** The loop [for (const [key, value] of this.entries()) predicate(value, key, this)]
    with [predicate = (v, k, c) => filter(v, k, c) && results.set(k, v)]. *)
Definition filter_set (f : V → K → list (K * V) → bool) (c : list (K * V))
    : list (K * V) :=
  foldl (λ results e, if f e.2 e.1 c then map_set results e.1 e.2 else results)
        [] (entries c).

(** The same loop with
    [predicate = (v, k, c) => filter(v, k, c) && results.push([k, v])]. *)
Definition filter_push (f : V → K → list (K * V) → bool) (c : list (K * V))
    : list (K * V) :=
  foldl (λ results e, if f e.2 e.1 c then results ++ [(e.1, e.2)] else results)
        [] (entries c).

(** [switch (options.return)] with [options = {}] by default. *)
Definition filter (f : V → K → list (K * V) → bool) (c : list (K * V))
    (options : option CollectionFilterOptions) : filter_result K V :=
  let ret := options ≫= return_ in
  if bool_decide (ret = Some "map") then AsMap (filter_set f c)
  else if bool_decide (ret = Some "collection") then AsCollection (filter_set f c)
  else AsArray (filter_push f c).

(** The (key, value) pairs a result of [filter] holds, in its own order. *)
Definition result_pairs (r : filter_result K V) : list (K * V) :=
  match r with
  | AsArray pairs => pairs
  | AsMap m => entries m
  | AsCollection c => entries c
  end.
End Filter.

(** *** Positional: [first], [firstKey], [last], [lastKey] *)

Section Positional.
Context {K V : Type}.

(** [!amount || amount <= 1] *)
Definition at_most_one (amount : option Z) : bool :=
  match amount with
  | None => true
  | Some n => bool_decide (n = 0) || (n <=? 1)
  end.

Definition first (c : list (K * V)) (amount : option Z) : positional_result V :=
  if at_most_one amount then Item (head (values c))
  else
    let values := values c in
    let amount := Z.min (Z.of_nat (length values)) (default 0 amount) in
    Items (slice values 0 (Some amount)).

Definition firstKey (c : list (K * V)) (amount : option Z) : positional_result K :=
  if at_most_one amount then Item (head (keys c))
  else
    let keys := keys c in
    let amount := Z.min (Z.of_nat (length keys)) (default 0 amount) in
    Items (slice keys 0 (Some amount)).

Definition last (c : list (K * V)) (amount : option Z) : positional_result V :=
  let values := values c in
  if at_most_one amount then Item (index values (Z.of_nat (length values) - 1))
  else
    let amount := Z.min (Z.of_nat (length values)) (default 0 amount) in
    Items (slice values (- amount) None).

Definition lastKey (c : list (K * V)) (amount : option Z) : positional_result K :=
  let keys := keys c in
  if at_most_one amount then Item (index keys (Z.of_nat (length keys) - 1))
  else
    let amount := Z.min (Z.of_nat (length keys)) (default 0 amount) in
    Items (slice keys (- amount) None).
End Positional.

(** *** Structural: [clone], [equal], [concat]

    These compare objects by identity or write into a new object, so they
    run on a heap of collections. *)

Section Structural.
Context {K V : Type} `{!EqDecision K}.

(** Every object of the heap is a [Map]. *)
Definition heap_wf (h : gmap loc (list (K * V))) : Prop :=
  ∀ l c, h !! l = Some c → wf c.

(** [merged.set(key, value)] on the object at [l]. *)
Definition set_at (h : gmap loc (list (K * V))) (l : loc) (k : K) (v : V)
    : gmap loc (list (K * V)) :=
  <[l := map_set (h !!! l) k v]> h.

(** [clone(): return new Collection<K, V>([...this])], a new object. *)
Definition clone (h : gmap loc (list (K * V))) (this : loc)
    : gmap loc (list (K * V)) * loc :=
  let l := fresh (dom h) in
  (<[l := of_entries (entries (h !!! this))]> h, l).

(** The message of the error [equal] throws without [lodash]. *)
Definition missing_lodash_error : string :=
  "Collection#equal: cannot perform deep equal without lodash installed".

(** The loop of [equal]:
    [case !collection.has(key) || !equal(collection.get(key), value): return false].
    [collection.get(key)] is evaluated only when the key is there. *)
Fixpoint equal_loop (eq : V → V → bool) (collection : list (K * V))
    (es : list (K * V)) : bool :=
  match es with
  | [] => true
  | (key, value) :: es' =>
      if negb (map_has collection key)
         || negb (match map_get collection key with
                  | Some w => eq w value
                  | None => false
                  end)
      then false
      else equal_loop eq collection es'
  end.

(** [equal(collection, options = {})]; [strict_equal arg1 arg2] is
    [arg1 === arg2] on the values, whatever JavaScript makes of it on the
    value type; [lodashIsEqual] is the deep-equality function when
    [require('lodash/isEqual')] succeeded; [collection] is [None] for
    [null] and [undefined]. *)
Definition equal (strict_equal : V → V → bool)
    (lodashIsEqual : option (V → V → bool))
    (h : gmap loc (list (K * V))) (this : loc) (collection : option loc)
    (options : option CollectionEqualOptions) : outcome bool :=
  let this_c := h !!! this in
  if bool_decide (Some (size this_c) ≠ (λ o, size (h !!! o)) <$> collection)
  then Return false
  else if bool_decide (Some this = collection) then Return true
  else
    let run (eq : V → V → bool) :=
      match collection with
      | Some o => Return (equal_loop eq (h !!! o) (entries this_c))
      | None =>
          match entries this_c with
          | [] => Return true
          | _ :: _ => Throw "TypeError: Cannot read properties of undefined (reading 'has')"
          end
      end in
    if default false (options ≫= deep) then
      match lodashIsEqual with
      | None => Throw missing_lodash_error
      | Some f => run (λ arg1 arg2, f arg1 arg2)
      end
    else run (λ arg1 arg2, strict_equal arg1 arg2).

(** [concat(collections)]; an element of [collections] is [None] when it is
    [null], [undefined] or not an instance of [Collection]. *)
Definition concat (h : gmap loc (list (K * V))) (this : loc)
    (collections : list (option loc)) : gmap loc (list (K * V)) * loc :=
  let '(h1, merged) := clone h this in
  (foldl (λ h collection,
            match collection with
            | None => h
            | Some l =>
                foldl (λ h e, set_at h merged e.1 e.2) h (entries (h !!! l))
            end) h1 collections,
   merged).
End Structural.

(** *** Transform: [find], [some], [every], [map], [forEach]

    A predicate is called with [(value, key, this)]; it reads the
    collection and does not write it. *)

Section Transform.
Context {K V : Type}.

(** [for (const [key, value] of this.entries())
      if (predicate(value, key, this)) return value]
    and then [return null]: [None] stands for [null]. *)
Fixpoint find_loop (predicate : V → K → list (K * V) → bool)
    (this es : list (K * V)) : option V :=
  match es with
  | [] => None
  | (key, value) :: es' =>
      if predicate value key this then Some value
      else find_loop predicate this es'
  end.

Definition find (predicate : V → K → list (K * V) → bool) (c : list (K * V))
    : option V :=
  find_loop predicate c (entries c).

(** [if (predicate(value, key, this)) return true] and then [return false]. *)
Fixpoint some_loop (predicate : V → K → list (K * V) → bool)
    (this es : list (K * V)) : bool :=
  match es with
  | [] => false
  | (key, value) :: es' =>
      if predicate value key this then true
      else some_loop predicate this es'
  end.

Definition some (predicate : V → K → list (K * V) → bool) (c : list (K * V))
    : bool :=
  some_loop predicate c (entries c).

(** [if (!predicate(value, key, this)) return false] and then [return true]. *)
Fixpoint every_loop (predicate : V → K → list (K * V) → bool)
    (this es : list (K * V)) : bool :=
  match es with
  | [] => true
  | (key, value) :: es' =>
      if negb (predicate value key this) then false
      else every_loop predicate this es'
  end.

Definition every (predicate : V → K → list (K * V) → bool) (c : list (K * V))
    : bool :=
  every_loop predicate c (entries c).

(** [for (...) result.push(predicate(value, key, this))]. *)
Definition map {T : Type} (predicate : V → K → list (K * V) → T)
    (c : list (K * V)) : list T :=
  foldl (λ result e, result ++ [predicate e.2 e.1 c]) [] (entries c).

(** [super.forEach((v, k) => { predicate(v, k, this) })]: the callback is
    run for its effect on a state of its own, threaded through the calls in
    the order of [Map.prototype.forEach], the insertion order. *)
Definition forEach {S : Type} (predicate : V → K → list (K * V) → S → S)
    (c : list (K * V)) (s : S) : S :=
  foldl (λ s e, predicate e.2 e.1 c s) s (entries c).
End Transform.

(** *** Partitioner: [intoChunks(size?)] *)

Section Partitioner.
Context {K V : Type} `{!EqDecision K}.

(** [intoChunks<[K, V]>([...this.entries()], size).map(e => new Collection(e))].
    The function [intoChunks] of [@src/utils/intoChunks] is not among the
    sources: it is the parameter [chunker]. *)
Definition intoChunks
    (chunker : list (K * V) → option Z → list (list (K * V)))
    (c : list (K * V)) (size : option Z) : list (list (K * V)) :=
  of_entries <$> chunker (entries c) size.
End Partitioner.

End Collection.

(** ** The specification's own wording, for comparison *)



(** "[first(n)]: returns up to [n] leading values (clamped to size) as an
    ordered sequence", and symmetrically from the trailing end. *)
Definition leading {A : Type} (l : list A) (n : Z) : list A :=
  take (Z.to_nat (Z.min n (Z.of_nat (length l)))) l.

Definition trailing {A : Type} (l : list A) (n : Z) : list A :=
  drop (length l - Z.to_nat (Z.min n (Z.of_nat (length l)))) l.

(** What one element of the argument of [concat] does to the entries of the
    accumulator: [merged.set(key, value)] for each of its entries. *)
Definition overlay {K V : Type} `{!EqDecision K} (h : gmap loc (list (K * V)))
    (m : list (K * V)) (collection : option loc) : list (K * V) :=
  match collection with
  | None => m
  | Some l => foldl (λ m e, Collection.map_set m e.1 e.2) m (h !!! l)
  end.

(** The number of distinct slots among the first [n] draws of the stream,
    each taken as [Math.floor(Math.random() * size)]. *)
Definition distinct_draws (rnd : nat → Q) (size n : nat) : nat :=
  length (remove_dups (Collection.draws rnd size n)).

(** A call of [random] is sure to come back within [fuel] draws: it does
    not run the rejection loop, or the draws hit enough distinct slots. *)
Definition comes_back (rnd : nat → Q) (fuel : nat) (size : nat) (amount : Z)
    (uniq : bool) : Prop :=
  uniq = false
  ∨ Collection.select_algorithm amount (Z.of_nat size) uniq = AlgorithmA
  ∨ amount ≤ Z.of_nat (distinct_draws rnd size fuel).

(** ** Sample data *)

(** A stream of draws: 0, 1/4, 2/4, 3/4, 0, ... *)
Definition quarters (k : nat) : Q := (Z.of_nat (k mod 4) # 4)%Q.

(** The collection built from [(1,'a'), (2,'b'), (3,'c')]. *)
Definition abc : list (Z * string) := [(1, "a"); (2, "b"); (3, "c")].

(** Ten entries [(0,0), ..., (9,9)]. *)
Definition ten : list (Z * Z) := (λ i, (Z.of_nat i, Z.of_nat i)) <$> seq 0 10.

(** A chunking function for the examples: the first two pairs, then the
    others. *)
Definition two_and_rest (l : list (Z * string)) (size : option Z)
    : list (list (Z * string)) :=
  [take 2 l; drop 2 l].

(** [===] on strings: two strings are strictly equal when they are the
    same sequence of characters. *)
Definition string_strict_equal (arg1 arg2 : string) : bool :=
  bool_decide (arg1 = arg2).

(** Numbers with [NaN], and [===] on them: [NaN] is strictly equal to
    nothing, itself included. *)
Inductive number : Type := NaN | Num (z : Z).

Definition number_strict_equal (arg1 arg2 : number) : bool :=
  match arg1, arg2 with
  | Num x, Num y => bool_decide (x = y)
  | _, _ => false
  end.

(** Two collections with the same entries in opposite orders. *)
Definition mirror : gmap loc (list (Z * string)) :=
  <[1%positive := [(1, "a"); (2, "b")]]>
  (<[2%positive := [(2, "b"); (1, "a")]]> ∅).

(** The same heap after the entries of the first collection were entered
    in the other order. *)
Definition mirror' : gmap loc (list (Z * string)) :=
  <[1%positive := [(2, "b"); (1, "a")]]>
  (<[2%positive := [(2, "b"); (1, "a")]]> ∅).

(** A heap with one collection, [{1 => NaN}]. *)
Definition nan_shelf : gmap loc (list (Z * number)) :=
  <[1%positive := [(1, NaN)]]> ∅.

(** A heap of three collections sharing the key [1], and an empty one. *)
Definition shelf : gmap loc (list (Z * string)) :=
  <[1%positive := [(1, "a"); (2, "x")]]>
  (<[2%positive := [(1, "b")]]>
  (<[3%positive := [(1, "d"); (3, "y")]]>
  (<[4%positive := []]> ∅))).

(** * Properties *)

(** ** Arithmetic of the draws *)

Lemma quarters_unit : unit_interval quarters.
Proof.
  intros k. unfold quarters, Qle, Qlt. simpl.
  pose proof (Nat.mod_upper_bound k 4). lia.
Defined.

Lemma random_index_lt rnd k max :
  unit_interval rnd → (0 < max)%nat → (Collection.random_index rnd k max < max)%nat.
Proof.
  intros Hu Hmax. destruct (Hu k) as [H0 H1]. unfold Collection.random_index.
  set (m := inject_Z (Z.of_nat max)).
  assert (Hm : (0 < m)%Q) by (unfold m; rewrite <- (Zlt_Qlt 0); lia).
  assert (Hlo : 0 ≤ Qfloor (rnd k * m)).
  { change 0 with (Qfloor 0). apply Qfloor_resp_le.
    apply Qmult_le_0_compat; [done | by apply Qlt_le_weak]. }
  assert (Hhi : Qfloor (rnd k * m) < Z.of_nat max).
  { rewrite Zlt_Qlt. eapply Qle_lt_trans; [apply Qfloor_le |]. fold m.
    eapply Qlt_le_trans; [apply (Qmult_lt_compat_r _ 1 m Hm H1) |].
    rewrite Qmult_1_l. apply Qle_refl. }
  lia.
Qed.

Lemma density_floor amount size :
  0 < size → Collection.density amount size = amount * 100 / size.
Proof.
  intros Hs. unfold Collection.density.
  destruct size as [|p|p]; try lia.
  assert (H : (inject_Z amount / inject_Z (Z.pos p) * 100 == (amount * 100) # p)%Q).
  { unfold Qeq, Qdiv, Qinv, Qmult, inject_Z. simpl. lia. }
  rewrite H. reflexivity.
Qed.

(** ** Algorithm A: the partial shuffle permutes the index sequence *)

Lemma insert_Permutation_delete {A} (l : list A) i v w :
  l !! i = Some v → <[i := w]> l ≡ₚ w :: delete i l.
Proof.
  revert i. induction l as [|a l IH]; intros [|i] Hi; simplify_eq/=; [done |].
  rewrite (IH _ Hi). apply Permutation_swap.
Qed.

Lemma swap_cons_S a l x y :
  Collection.swap (a :: l) (S x) (S y) = a :: Collection.swap l x y.
Proof.
  unfold Collection.swap. simpl.
  destruct (l !! x), (l !! y); reflexivity.
Qed.

Lemma swap_Permutation l x y : Collection.swap l x y ≡ₚ l.
Proof.
  revert x y. induction l as [|a l IH]; intros x y.
  { by destruct x, y. }
  destruct x as [|x], y as [|y].
  - reflexivity.
  - unfold Collection.swap. simpl. destruct (l !! y) as [b|] eqn:Hy; [|done].
    simpl. rewrite (insert_Permutation_delete _ _ _ _ Hy).
    rewrite (delete_Permutation _ _ _ Hy) at 2. apply Permutation_swap.
  - unfold Collection.swap. simpl. destruct (l !! x) as [b|] eqn:Hx; [|done].
    simpl. rewrite (insert_Permutation_delete _ _ _ _ Hx).
    rewrite (delete_Permutation _ _ _ Hx) at 2. apply Permutation_swap.
  - rewrite swap_cons_S. by rewrite IH.
Qed.

Lemma shuffle_Permutation rnd iters k max l :
  Collection.shuffle rnd iters k max l ≡ₚ l.
Proof.
  revert k max l. induction iters as [|n IH]; intros k max l; simpl; [done |].
  rewrite IH. apply swap_Permutation.
Qed.

Lemma range_NoDup n : NoDup (Collection.range n).
Proof. apply NoDup_seq. Qed.

Lemma lookups_take (l : list nat) n :
  (n ≤ length l)%nat →
  (λ i, default 0%nat (l !! i)) <$> seq 0 n = take n l.
Proof.
  revert n. induction l as [|a l IH]; intros [|n] Hn; simpl in *; try done; try lia.
  f_equal. rewrite <- fmap_S_seq, <- list_fmap_compose.
  rewrite <- (IH n) by lia. done.
Qed.

Lemma slots_A_take rnd size amount :
  (amount ≤ size)%nat →
  Collection.slots_A rnd size amount =
  take amount (Collection.shuffle rnd size 0 size (Collection.range (size + 1))).
Proof.
  intros Ha. unfold Collection.slots_A. apply lookups_take.
  rewrite (Permutation_length (shuffle_Permutation _ _ _ _ _)).
  unfold Collection.range. rewrite length_seq. lia.
Qed.

Lemma slots_A_NoDup rnd size amount :
  (amount ≤ size)%nat → NoDup (Collection.slots_A rnd size amount).
Proof.
  intros Ha. rewrite slots_A_take by done.
  eapply sublist_NoDup; [| apply sublist_take].
  rewrite shuffle_Permutation. apply range_NoDup.
Qed.

Lemma slots_A_length rnd size amount :
  length (Collection.slots_A rnd size amount) = amount.
Proof. unfold Collection.slots_A. by rewrite length_fmap, length_seq. Qed.

(** ** Algorithm B: the rejection loop *)

Lemma reject_sound rnd size amount fuel :
  ∀ k i random r,
    i = Z.of_nat (length random) → NoDup random →
    Collection.reject rnd fuel size amount k i random = Some r →
    NoDup r ∧ Z.of_nat (length r) = Z.max amount i ∧
    ∀ x, x ∈ r → x ∈ random ∨ ∃ j, x = Collection.random_index rnd j size.
Proof.
  induction fuel as [|fuel IH]; intros k i random r Hi Hnd; simpl.
  - case_bool_decide; [done |]. intros [= <-].
    split_and!; [done | lia | by left].
  - case_bool_decide as Hlt; [| intros [= <-]; split_and!; [done | lia | by left]].
    case_bool_decide as Hin.
    + replace (i - 1 + 1) with i by lia. intros Hr.
      destruct (IH _ _ _ _ Hi Hnd Hr) as (? & ? & ?). done.
    + intros Hr. apply IH in Hr as (Hnd' & Hlen & Hmem).
      * split_and!; [done | lia |]. intros x Hx.
        destruct (Hmem x Hx) as [[?|Hs]%elem_of_app|?]; eauto.
        apply list_elem_of_singleton in Hs as ->. eauto.
      * rewrite length_app. simpl. lia.
      * apply NoDup_app. split_and!; [done | | apply NoDup_singleton].
        intros x Hx Hs. apply list_elem_of_singleton in Hs as ->. done.
Qed.

(** The number of distinct slots among the draws [k, k + 1, ..., k + n - 1]
    that are not yet in [random]. *)
Lemma fresh_draws_step (d : nat) (ds random : list nat) :
  d ∉ random →
  (length (remove_dups (list_difference (d :: ds) random))
   ≤ S (length (remove_dups (list_difference ds (random ++ [d])))))%nat.
Proof.
  intros Hd.
  change (S (length ?l)) with (length (d :: l)).
  apply submseteq_length, NoDup_submseteq; [apply NoDup_remove_dups |].
  intros x [Hx Hnx]%elem_of_remove_dups%list_elem_of_difference.
  destruct (decide (x = d)) as [->|Hne]; [left |].
  right. apply elem_of_remove_dups, list_elem_of_difference.
  apply elem_of_cons in Hx as [?|Hx]; [done |]. split; [done |].
  intros [?|Hs]%elem_of_app; [done |].
  by apply list_elem_of_singleton in Hs.
Qed.

Lemma list_difference_cons_elem (d : nat) (ds random : list nat) :
  d ∈ random → list_difference (d :: ds) random = list_difference ds random.
Proof. intros Hd. simpl. by destruct (decide_rel elem_of d random). Qed.

Lemma reject_terminates rnd size amount fuel :
  ∀ k i random,
    i = Z.of_nat (length random) →
    amount ≤ Z.of_nat (length random
      + length (remove_dups (list_difference
          ((λ j, Collection.random_index rnd j size) <$> seq k fuel) random))) →
    is_Some (Collection.reject rnd fuel size amount k i random).
Proof.
  induction fuel as [|fuel IH]; intros k i random Hi Hamount.
  - simpl in *. case_bool_decide; [lia | done].
  - cbn [Collection.reject]. case_bool_decide as Hlt; [| done].
    cbn [seq fmap list_fmap] in Hamount.
    case_bool_decide as Hin.
    + replace (i - 1 + 1) with i by lia. apply IH; [done |].
      by rewrite list_difference_cons_elem in Hamount.
    + apply IH; [rewrite length_app; simpl; lia |].
      pose proof (fresh_draws_step _
        ((λ j, Collection.random_index rnd j size) <$> seq (S k) fuel) _ Hin) as Hstep.
      rewrite length_app. simpl (length [_]). lia.
Qed.

(** ** The sampler as a whole *)

Lemma normalize_amount_None size : Collection.normalize_amount size None = 1.
Proof. reflexivity. Qed.

Lemma normalize_amount_Some size n :
  0 < size → 0 < n → Collection.normalize_amount size (Some n) = Z.min n size.
Proof.
  intros Hs Hn. unfold Collection.normalize_amount.
  rewrite bool_decide_true by lia. simpl.
  destruct (Z.ltb_spec size n); simpl.
  - rewrite bool_decide_true by lia. simpl.
    destruct (Z.ltb_spec size 1); simpl; lia.
  - rewrite bool_decide_true by lia. simpl.
    destruct (Z.ltb_spec n 1); simpl; lia.
Qed.

Lemma normalize_amount_bounds size amount :
  0 < size → 1 ≤ Collection.normalize_amount size amount ≤ size.
Proof.
  intros Hs. destruct amount as [n|]; [| rewrite normalize_amount_None; lia].
  destruct (Z.lt_ge_cases 0 n) as [Hn|Hn];
    [rewrite normalize_amount_Some by done; lia |].
  unfold Collection.normalize_amount.
  destruct (decide (n = 0)) as [->|Hne].
  - rewrite bool_decide_false by lia. simpl. lia.
  - rewrite bool_decide_true by lia. simpl.
    destruct (Z.ltb_spec size n); [lia |]. simpl.
    rewrite bool_decide_true by lia. simpl.
    destruct (Z.ltb_spec n 1); simpl; lia.
Qed.

Lemma list_difference_nil_r' (l : list nat) : list_difference l [] = l.
Proof.
  induction l as [|x l IH]; [done |]. simpl.
  destruct (decide_rel elem_of x []) as [Hx|_]; [by apply elem_of_nil in Hx |].
  by rewrite IH.
Qed.

Lemma random_slots_length rnd fuel size amount uniq slots :
  0 ≤ amount →
  Collection.random_slots rnd fuel size amount uniq = Some slots →
  length slots = Z.to_nat amount.
Proof.
  intros Ha. unfold Collection.random_slots.
  destruct (Collection.select_algorithm _ _ _).
  - intros [= <-]. apply slots_A_length.
  - destruct uniq.
    + intros Hr. apply reject_sound in Hr as (_ & Hlen & _);
        [simpl in Hlen; lia | done | apply NoDup_nil_2].
    + intros [= <-]. unfold Collection.draws. by rewrite length_fmap, length_seq.
Qed.

Lemma random_slots_comes_back rnd fuel size amount uniq :
  comes_back rnd fuel size amount uniq →
  is_Some (Collection.random_slots rnd fuel size amount uniq).
Proof.
  unfold comes_back, Collection.random_slots.
  destruct (Collection.select_algorithm _ _ _); [done |].
  intros [-> | [? | Hd]]; [done | done |].
  destruct uniq; [| done].
  apply reject_terminates; [done |]. simpl.
  by rewrite list_difference_nil_r'.
Qed.

Lemma random_nonempty rnd {K V} fuel (c : list (K * V)) amount options :
  c ≠ [] →
  Collection.random rnd fuel c amount options =
  slots ← Collection.random_slots rnd fuel (length c)
             (Collection.normalize_amount (Collection.size c) amount)
             (Collection.unique_flag options);
  Some (Return
    (if Collection.normalize_amount (Collection.size c) amount <=? 1
     then Single (mjoin (((λ r, Collection.values c !! r) <$> slots) !! 0%nat))
     else Many ((λ r, Collection.values c !! r) <$> slots))).
Proof.
  intros Hc. unfold Collection.random.
  destruct (Z.ltb_spec (Collection.size c) 1) as [Hlt|]; [| done].
  destruct c; [done |]. unfold Collection.size in Hlt. simpl in Hlt. lia.
Qed.

Lemma size_pos {K V} (c : list (K * V)) : c ≠ [] → 0 < Collection.size c.
Proof. destruct c; [done |]. unfold Collection.size. simpl. lia. Qed.

Lemma random_result_count rnd {K V} fuel (c : list (K * V)) amount options r :
  c ≠ [] →
  Collection.random rnd fuel c amount options = Some (Return r) →
  Z.of_nat (Collection.result_count r)
  = Collection.normalize_amount (Collection.size c) amount.
Proof.
  intros Hc. rewrite random_nonempty by done.
  pose proof (normalize_amount_bounds (Collection.size c) amount (size_pos c Hc)).
  destruct (Collection.random_slots _ _ _ _ _) as [slots|] eqn:Hs; [| done].
  simpl. intros [= <-]. apply random_slots_length in Hs; [| lia].
  destruct (Z.leb_spec (Collection.normalize_amount (Collection.size c) amount) 1);
    simpl; [lia |].
  rewrite length_fmap. lia.
Qed.

Lemma random_comes_back rnd {K V} fuel (c : list (K * V)) amount options :
  c ≠ [] →
  comes_back rnd fuel (length c)
    (Collection.normalize_amount (Collection.size c) amount)
    (Collection.unique_flag options) →
  ∃ r, Collection.random rnd fuel c amount options = Some (Return r).
Proof.
  intros Hc Hback. rewrite random_nonempty by done.
  destruct (random_slots_comes_back _ _ _ _ _ Hback) as [slots ->].
  simpl. eauto.
Qed.

Lemma random_backed_by_slots rnd {K V} fuel (c : list (K * V)) amount options slots :
  c ≠ [] →
  Collection.random_slots rnd fuel (length c)
    (Collection.normalize_amount (Collection.size c) amount)
    (Collection.unique_flag options) = Some slots →
  ∃ r, Collection.random rnd fuel c amount options = Some (Return r)
       ∧ Collection.result_values r = (λ s, Collection.values c !! s) <$> slots.
Proof.
  intros Hc Hslots. rewrite random_nonempty by done. rewrite Hslots. simpl.
  eexists; split; [done |].
  pose proof (normalize_amount_bounds (Collection.size c) amount (size_pos c Hc)).
  apply random_slots_length in Hslots; [| lia].
  destruct (Z.leb_spec (Collection.normalize_amount (Collection.size c) amount) 1);
    [| done].
  destruct slots as [|s [|? ?]]; simpl in *; try lia. done.
Qed.

(** C1. For every non-empty collection and every positive integer [n],
    [random(n)] returns exactly [min(n, size)] values, and [random()] with
    no amount returns exactly one value.  The call [random(n)] and the call
    [random()] always come back; with any [options], every call that comes
    back returns [min(n, size)] values, and a call comes back as soon as the
    rejection loop is not run or the draws hit enough distinct slots. *)
Theorem random_returns_min_amount rnd {K V} (c : list (K * V)) (n : Z) :
  c ≠ [] → 0 < n →
  (∀ fuel, ∃ r,
      Collection.random rnd fuel c (Some n) None = Some (Return r)
      ∧ Z.of_nat (Collection.result_count r) = Z.min n (Collection.size c))
  ∧ (∀ fuel, ∃ v,
      Collection.random rnd fuel c None None = Some (Return (Single v)))
  ∧ (∀ fuel options r,
      Collection.random rnd fuel c (Some n) options = Some (Return r) →
      Z.of_nat (Collection.result_count r) = Z.min n (Collection.size c))
  ∧ (∀ fuel options,
      comes_back rnd fuel (length c) (Z.min n (Collection.size c))
        (Collection.unique_flag options) →
      ∃ r, Collection.random rnd fuel c (Some n) options = Some (Return r)).
Proof.
  intros Hc Hn. pose proof (size_pos c Hc) as Hs.
  assert (Hcount : ∀ fuel options r,
    Collection.random rnd fuel c (Some n) options = Some (Return r) →
    Z.of_nat (Collection.result_count r) = Z.min n (Collection.size c)).
  { intros fuel options r Hr. apply random_result_count in Hr; [| done].
    by rewrite normalize_amount_Some in Hr. }
  split_and!.
  - intros fuel.
    destruct (random_comes_back rnd fuel c (Some n) None Hc) as [r Hr];
      [by left | eauto].
  - intros fuel.
    destruct (random_comes_back rnd fuel c None None Hc) as [r Hr]; [by left |].
    rewrite Hr. rewrite random_nonempty in Hr by done.
    destruct (Collection.random_slots _ _ _ _ _); simplify_eq/=. eauto.
  - done.
  - intros fuel options Hback. apply random_comes_back; [done |].
    by rewrite normalize_amount_Some.
Qed.

Lemma random_returns_min_amount_witness :
  ∃ r, Collection.random quarters 0 abc (Some 2) None = Some (Return r)
       ∧ Z.of_nat (Collection.result_count r) = 2.
Proof.
  destruct (random_returns_min_amount quarters abc 2) as (H & _);
    [done | lia |].
  exact (H 0%nat).
Defined.

(** C2. For every non-empty collection and every [n ≤ size] (indeed every
    amount, present or not, once it is normalised), the slots backing the
    result of [random(n, {unique: true})] are pairwise distinct, whichever
    algorithm is selected; there are as many as the normalised amount, and
    the call returns the values found at these slots. *)
Theorem random_unique_slots_distinct rnd {K V} (c : list (K * V))
    (amount : option Z) fuel slots :
  c ≠ [] →
  Collection.random_slots rnd fuel (length c)
    (Collection.normalize_amount (Collection.size c) amount) true = Some slots →
  NoDup slots
  ∧ Z.of_nat (length slots) = Collection.normalize_amount (Collection.size c) amount
  ∧ (∀ n, amount = Some n → 1 ≤ n ≤ Collection.size c →
          Z.of_nat (length slots) = n)
  ∧ ∃ r, Collection.random rnd fuel c amount (Some {| unique := Some true |})
           = Some (Return r)
         ∧ Collection.result_values r = (λ s, Collection.values c !! s) <$> slots.
Proof.
  intros Hc Hslots. pose proof (size_pos c Hc) as Hs.
  pose proof (normalize_amount_bounds (Collection.size c) amount Hs) as Hb.
  assert (Hlen : length slots
                 = Z.to_nat (Collection.normalize_amount (Collection.size c) amount))
    by (eapply random_slots_length; [| done]; lia).
  split_and!.
  - revert Hslots. unfold Collection.random_slots.
    destruct (Collection.select_algorithm _ _ _).
    + intros [= <-]. apply slots_A_NoDup. unfold Collection.size in *. lia.
    + intros Hr. by apply reject_sound in Hr as (? & _); [| | apply NoDup_nil_2].
  - lia.
  - intros n -> Hn. rewrite normalize_amount_Some in Hlen by lia. lia.
  - by apply random_backed_by_slots.
Qed.

Lemma random_unique_slots_distinct_witness :
  (Collection.select_algorithm 3 3 true = AlgorithmA ∧ NoDup [1; 2; 3]%nat)
  ∧ (Collection.select_algorithm 2 10 true = AlgorithmB ∧ NoDup [0; 2]%nat).
Proof.
  split; (split; [reflexivity |]).
  - apply (random_unique_slots_distinct quarters abc (Some 3) 0 [1; 2; 3]%nat);
      [done | reflexivity].
  - apply (random_unique_slots_distinct quarters ten (Some 2) 2 [0; 2]%nat);
      [done | reflexivity].
Defined.


(** C5. [random] throws the empty-collection error if and only if the
    size of the collection is 0, before any draw is made; on a non-empty
    collection it returns a result whenever it comes back, and it comes
    back as soon as the rejection loop is not run or the draws hit enough
    distinct slots. *)
Theorem random_throws_iff_empty rnd {K V} (c : list (K * V)) amount options fuel :
  (∀ msg, Collection.random rnd fuel c amount options = Some (Throw msg)
          ↔ Collection.size c = 0 ∧ msg = Collection.empty_collection_error)
  ∧ (Collection.size c = 0 →
     ∀ rnd' fuel' amount' options',
       Collection.random rnd' fuel' c amount' options'
       = Some (Throw Collection.empty_collection_error))
  ∧ (Collection.size c ≠ 0 →
     comes_back rnd fuel (length c)
       (Collection.normalize_amount (Collection.size c) amount)
       (Collection.unique_flag options) →
     ∃ r, Collection.random rnd fuel c amount options = Some (Return r)).
Proof.
  destruct c as [|e c].
  - split_and!; [| done | done].
    intros msg. unfold Collection.random. simpl.
    split; [by intros [= <-] | by intros [_ ->]].
  - assert (Hne : e :: c ≠ []) by done.
    pose proof (size_pos _ Hne).
    split_and!; [| lia |].
    + intros msg. rewrite random_nonempty by done.
      destruct (Collection.random_slots _ _ _ _ _); split;
        try done; intros [? _]; lia.
    + intros _ Hback. by apply random_comes_back.
Qed.

Lemma random_throws_iff_empty_witness :
  Collection.random quarters 0 (@nil (Z * string)) (Some 2) None
  = Some (Throw Collection.empty_collection_error)
  ∧ ∃ r, Collection.random quarters 4 ten (Some 4) (Some {| unique := Some true |})
         = Some (Return r).
Proof.
  split.
  - apply (random_throws_iff_empty quarters (@nil (Z * string)) None None 0).
    reflexivity.
  - apply (random_throws_iff_empty quarters ten (Some 4)
             (Some {| unique := Some true |}) 4).
    + unfold Collection.size. simpl. lia.
    + right. right. vm_compute. discriminate.
Defined.

(** ** Algorithm A draws the slot [size], which is outside the snapshot *)

Lemma swap_lookup_ne l x y j :
  j ≠ x → j ≠ y → Collection.swap l x y !! j = l !! j.
Proof.
  intros Hx Hy. unfold Collection.swap.
  destruct (l !! x), (l !! y); try done.
  by rewrite !list_lookup_insert_ne.
Qed.

Lemma swap_lookup_r l x y a :
  l !! x = Some a → is_Some (l !! y) → Collection.swap l x y !! y = Some a.
Proof.
  intros Hx [b Hy]. unfold Collection.swap. rewrite Hx, Hy.
  destruct (decide (x = y)) as [->|Hne].
  - rewrite list_lookup_insert_eq; [congruence |].
    rewrite length_insert. by eapply lookup_lt_Some.
  - rewrite list_lookup_insert_ne by done.
    apply list_lookup_insert_eq. by eapply lookup_lt_Some.
Qed.

Lemma shuffle_lookup_above rnd iters :
  unit_interval rnd →
  ∀ k max l j, (iters ≤ max)%nat → (max < j)%nat →
    Collection.shuffle rnd iters k max l !! j = l !! j.
Proof.
  intros Hu. induction iters as [|n IH]; intros k max l j Hi Hj; simpl; [done |].
  pose proof (random_index_lt rnd k max Hu ltac:(lia)).
  rewrite IH by lia. apply swap_lookup_ne; lia.
Qed.

Lemma shuffle_last rnd size :
  unit_interval rnd → (0 < size)%nat →
  ∃ num, (num < size)%nat
    ∧ Collection.shuffle rnd size 0 size (Collection.range (size + 1)) !! size
      = Some num.
Proof.
  intros Hu Hs. destruct size as [|n]; [lia |].
  exists (Collection.random_index rnd 0 (S n)).
  split; [apply random_index_lt; [done | lia] |].
  cbn [Collection.shuffle]. rewrite shuffle_lookup_above by (done || lia).
  pose proof (random_index_lt rnd 0 (S n) Hu ltac:(lia)).
  unfold Collection.range.
  apply swap_lookup_r; [by rewrite lookup_seq_lt by lia |].
  apply lookup_lt_is_Some. rewrite length_seq. lia.
Qed.

Lemma slots_A_all_contains_size rnd size :
  unit_interval rnd → (0 < size)%nat → size ∈ Collection.slots_A rnd size size.
Proof.
  intros Hu Hs. rewrite slots_A_take by done.
  destruct (shuffle_last rnd size Hu Hs) as (num & Hnum & Hlast).
  set (rn := Collection.shuffle rnd size 0 size (Collection.range (size + 1))) in *.
  assert (Hin : size ∈ rn).
  { unfold rn. rewrite shuffle_Permutation. apply elem_of_seq. lia. }
  apply list_elem_of_lookup in Hin as [i Hi].
  assert (i ≠ size) by (intros ->; rewrite Hlast in Hi; simplify_eq; lia).
  assert (i < length rn)%nat by (by eapply lookup_lt_Some).
  assert (length rn = (size + 1)%nat) as Hlen.
  { unfold rn. rewrite (Permutation_length (shuffle_Permutation _ _ _ _ _)).
    apply length_seq. }
  apply list_elem_of_lookup. exists i. rewrite lookup_take_lt by lia. done.
Qed.

Lemma density_full size : 0 < size → Collection.density size size = 100.
Proof.
  intros Hs. rewrite density_floor by done.
  rewrite Z.mul_comm. apply Z.div_mul. lia.
Qed.

Lemma select_algorithm_full size :
  0 < size → Collection.select_algorithm size size true = AlgorithmA.
Proof.
  intros Hs. unfold Collection.select_algorithm, Collection.largeAmount.
  rewrite density_full by done. unfold Collection.threshold.
  destruct (Z.ltb_spec 500 size), (Z.ltb_spec 1000 size); reflexivity.
Qed.

(** Algorithm B only draws slots of the snapshot: its values are values of
    the collection. *)
Lemma random_algorithm_B_members rnd {K V} (c : list (K * V)) amount options
    fuel r :
  unit_interval rnd → c ≠ [] →
  Collection.select_algorithm
    (Collection.normalize_amount (Collection.size c) amount)
    (Collection.size c) (Collection.unique_flag options) = AlgorithmB →
  Collection.random rnd fuel c amount options = Some (Return r) →
  ∀ x, x ∈ Collection.result_values r → ∃ v, x = Some v ∧ v ∈ Collection.values c.
Proof.
  intros Hu Hc Hsel Hr.
  destruct (Collection.random_slots rnd fuel (length c)
              (Collection.normalize_amount (Collection.size c) amount)
              (Collection.unique_flag options)) as [slots|] eqn:Hslots;
    [| by rewrite random_nonempty, Hslots in Hr].
  destruct (random_backed_by_slots rnd fuel c amount options slots Hc Hslots)
    as (r' & Hr' & Hv).
  assert (r' = r) as -> by congruence. rewrite Hv.
  assert (Hlt : ∀ j, (Collection.random_index rnd j (length c) < length c)%nat).
  { intros j. apply random_index_lt; [done |]. destruct c; [done | simpl; lia]. }
  assert (Hslot : ∀ s, s ∈ slots → (s < length c)%nat).
  { unfold Collection.size in Hslots, Hsel.
    revert Hslots. unfold Collection.random_slots. rewrite Hsel.
    destruct (Collection.unique_flag options).
    - intros Hrej s Hs.
      apply reject_sound in Hrej as (_ & _ & Hmem); [| done | apply NoDup_nil_2].
      destruct (Hmem s Hs) as [Hnil | [j ->]]; [by apply elem_of_nil in Hnil | done].
    - intros [= <-] s (j & -> & _)%list_elem_of_fmap. done. }
  intros x (s & -> & Hs)%list_elem_of_fmap.
  destruct (lookup_lt_is_Some_2 (Collection.values c) s) as [v Hv'].
  { unfold Collection.values. rewrite length_fmap. by apply Hslot. }
  exists v. split; [done |]. by eapply list_elem_of_lookup_2.
Qed.

(** C3 fails on the code.  Asked for as many unique values as the
    collection has, [random] takes Algorithm A, whose index sequence
    [range(size + 1)] holds the slot [size]; that slot always ends among
    the first [size] positions, and the snapshot has no value there: the
    result holds [undefined], which is not a value of the collection. *)
Theorem random_all_unique_yields_undefined rnd {K V} (c : list (K * V)) fuel :
  unit_interval rnd → c ≠ [] →
  ∃ r, Collection.random rnd fuel c (Some (Collection.size c))
         (Some {| unique := Some true |}) = Some (Return r)
       ∧ None ∈ Collection.result_values r.
Proof.
  intros Hu Hc. pose proof (size_pos c Hc) as Hs.
  destruct (random_backed_by_slots rnd fuel c (Some (Collection.size c))
              (Some {| unique := Some true |})
              (Collection.slots_A rnd (length c) (length c)) Hc) as (r & Hr & Hv).
  { rewrite normalize_amount_Some, Z.min_id by done. simpl.
    unfold Collection.random_slots. unfold Collection.size in *.
    rewrite select_algorithm_full by done. by rewrite Nat2Z.id. }
  exists r. split; [done |]. rewrite Hv.
  apply list_elem_of_fmap. exists (length c). split.
  - symmetry. apply lookup_ge_None. unfold Collection.values.
    by rewrite length_fmap.
  - apply slots_A_all_contains_size; [done |]. unfold Collection.size in Hs. lia.
Qed.

Lemma random_all_unique_yields_undefined_witness :
  ∃ r, Collection.random quarters 0 abc (Some 3) (Some {| unique := Some true |})
       = Some (Return r)
       ∧ None ∈ Collection.result_values r.
Proof.
  apply (random_all_unique_yields_undefined quarters abc 0 quarters_unit). done.
Defined.

(** The smallest case: on a collection of one entry,
    [random(1, {unique: true})] returns [undefined] whatever is drawn. *)
Lemma random_unique_singleton_undefined rnd {K V} (k : K) (v : V) fuel :
  unit_interval rnd →
  Collection.random rnd fuel [(k, v)] (Some 1) (Some {| unique := Some true |})
  = Some (Return (Single None)).
Proof.
  intros Hu. unfold Collection.random. simpl.
  change (Collection.random_slots rnd fuel 1 1 true)
    with (Some (Collection.slots_A rnd 1 1)).
  unfold Collection.slots_A. simpl.
  pose proof (random_index_lt rnd 0 1 Hu ltac:(lia)) as Hlt.
  replace (Collection.random_index rnd 0 1) with 0%nat by lia. reflexivity.
Qed.

(** ** Filter *)

Section FilterFacts.
Context {K V : Type} `{!EqDecision K}.
Implicit Types (m c : list (K * V)) (g : K * V → bool).

Lemma map_set_fresh m k v :
  k ∉ Collection.keys m → Collection.map_set m k v = m ++ [(k, v)].
Proof.
  unfold Collection.keys. induction m as [|[k' v'] m IH]; simpl; [done |].
  intros Hk. apply not_elem_of_cons in Hk as [Hne Hk].
  rewrite decide_False by done. by rewrite IH.
Qed.

Lemma set_loop_push_loop g l :
  ∀ acc,
    NoDup (Collection.keys l) →
    (∀ k, k ∈ Collection.keys acc → k ∉ Collection.keys l) →
    foldl (λ results e, if g e then Collection.map_set results e.1 e.2 else results)
          acc l
    = foldl (λ results e, if g e then results ++ [(e.1, e.2)] else results) acc l.
Proof.
  unfold Collection.keys.
  induction l as [|[k v] l IH]; intros acc Hnd Hdisj; simpl; [done |].
  apply NoDup_cons in Hnd as [Hk Hnd]. destruct (g (k, v)).
  - rewrite map_set_fresh.
    + apply IH; [done |]. intros k'. rewrite fmap_app. simpl.
      intros [Hk'|Hk']%elem_of_app.
      * specialize (Hdisj k' Hk'). by apply not_elem_of_cons in Hdisj as [_ ?].
      * apply list_elem_of_singleton in Hk' as ->. done.
    + intros Hin. specialize (Hdisj k Hin). apply Hdisj. simpl. left.
  - apply IH; [done |]. intros k' Hk'. specialize (Hdisj k' Hk').
    by apply not_elem_of_cons in Hdisj as [_ ?].
Qed.

Lemma push_loop_filter g l :
  ∀ acc,
    foldl (λ results e, if g e then results ++ [(e.1, e.2)] else results) acc l
    = acc ++ List.filter g l.
Proof.
  induction l as [|[k v] l IH]; intros acc; simpl; [by rewrite app_nil_r |].
  rewrite IH. destruct (g (k, v)); [| done]. by rewrite <- app_assoc.
Qed.

Lemma filter_set_push (f : V → K → list (K * V) → bool) c :
  Collection.wf c → Collection.filter_set f c = Collection.filter_push f c.
Proof.
  intros Hwf. unfold Collection.filter_set, Collection.filter_push.
  apply (set_loop_push_loop (λ e, f e.2 e.1 c)); [done |].
  intros k Hk. by apply elem_of_nil in Hk.
Qed.

Lemma filter_push_filter (f : V → K → list (K * V) → bool) c :
  Collection.filter_push f c = List.filter (λ e, f e.2 e.1 c) c.
Proof.
  unfold Collection.filter_push.
  by rewrite (push_loop_filter (λ e, f e.2 e.1 c)).
Qed.
End FilterFacts.

(** C6. For every collection and every predicate, [filter] with
    [{return: 'array'}], [{return: 'map'}] and [{return: 'collection'}]
    yields the same (key, value) pairs, the entries that satisfy the
    predicate in insertion order, each in the container asked for; without
    options, or without [return], the shape is the array. *)
Theorem filter_shapes_agree {K V} `{!EqDecision K}
    (f : V → K → list (K * V) → bool) (c : list (K * V)) :
  Collection.wf c →
  let kept := List.filter (λ e, f e.2 e.1 c) c in
  Collection.filter f c (Some {| return_ := Some "array" |}) = AsArray kept
  ∧ Collection.filter f c (Some {| return_ := Some "map" |}) = AsMap kept
  ∧ Collection.filter f c (Some {| return_ := Some "collection" |})
    = AsCollection kept
  ∧ Collection.result_pairs
      (Collection.filter f c (Some {| return_ := Some "array" |}))
    = Collection.result_pairs
        (Collection.filter f c (Some {| return_ := Some "map" |}))
  ∧ Collection.result_pairs
      (Collection.filter f c (Some {| return_ := Some "map" |}))
    = Collection.result_pairs
        (Collection.filter f c (Some {| return_ := Some "collection" |}))
  ∧ Collection.filter f c None
    = Collection.filter f c (Some {| return_ := Some "array" |})
  ∧ Collection.filter f c (Some {| return_ := None |})
    = Collection.filter f c (Some {| return_ := Some "array" |}).
Proof.
  intros Hwf kept. unfold Collection.filter. simpl.
  rewrite filter_set_push by done. rewrite filter_push_filter.
  by split_and!.
Qed.

Lemma filter_shapes_agree_witness :
  Collection.filter (λ _ k _, bool_decide (k ≠ 2)) abc
    (Some {| return_ := Some "map" |}) = AsMap [(1, "a"); (3, "c")].
Proof.
  assert (Hwf : Collection.wf abc)
    by (apply (bool_decide_unpack (NoDup [1; 2; 3])); reflexivity).
  exact (proj1 (proj2
    (filter_shapes_agree (λ _ k _, bool_decide (k ≠ 2)) abc Hwf))).
Defined.

(** ** Positional *)

Lemma at_most_one_small n : n ≤ 1 → Collection.at_most_one (Some n) = true.
Proof.
  intros Hn. unfold Collection.at_most_one.
  destruct (Z.leb_spec n 1); [| lia]. apply orb_true_r.
Qed.

Lemma at_most_one_large n : 2 ≤ n → Collection.at_most_one (Some n) = false.
Proof.
  intros Hn. unfold Collection.at_most_one.
  rewrite bool_decide_false by lia. destruct (Z.leb_spec n 1); [lia | done].
Qed.

Lemma slice_leading {A} (l : list A) n :
  0 ≤ n →
  Collection.slice l 0 (Some (Z.min (Z.of_nat (length l)) n)) = leading l n.
Proof.
  intros Hn. unfold Collection.slice, Collection.relative_index, leading.
  change (0 <? 0) with false. cbv iota.
  destruct (Z.ltb_spec (Z.min (Z.of_nat (length l)) n) 0); [lia |].
  rewrite (Z.min_l 0) by lia. change (Z.to_nat 0) with 0%nat.
  rewrite drop_0. f_equal. lia.
Qed.

Lemma slice_trailing {A} (l : list A) n :
  1 ≤ n →
  Collection.slice l (- Z.min (Z.of_nat (length l)) n) None = trailing l n.
Proof.
  intros Hn. unfold Collection.slice, Collection.relative_index, trailing.
  destruct l as [|a l]; [by rewrite !drop_nil, take_nil |].
  set (len := length (a :: l)). assert (1 ≤ len)%nat by (unfold len; simpl; lia).
  destruct (Z.ltb_spec (- Z.min (Z.of_nat len) n) 0); [| lia].
  replace (Z.to_nat (Z.max (Z.of_nat len + - Z.min (Z.of_nat len) n) 0))
    with (len - Z.to_nat (Z.min n (Z.of_nat len)))%nat by lia.
  apply take_ge. rewrite length_drop. fold len. lia.
Qed.

(** C8, amended.  For every collection and every integer [n ≥ 2],
    [first(n)] and [firstKey(n)] return the sequence of the [min(n, size)]
    leading values and keys in insertion order, [last(n)] and [lastKey(n)]
    the sequence of the [min(n, size)] trailing ones; for [n ≤ 1] the four
    calls return one item, the first or last value or key ([undefined] on
    an empty collection), and no sequence. *)
Theorem positional_sequences {K V} (c : list (K * V)) (n : Z) :
  (2 ≤ n →
   Collection.first c (Some n) = Items (leading (Collection.values c) n)
   ∧ Collection.firstKey c (Some n) = Items (leading (Collection.keys c) n)
   ∧ Collection.last c (Some n) = Items (trailing (Collection.values c) n)
   ∧ Collection.lastKey c (Some n) = Items (trailing (Collection.keys c) n)
   ∧ length (leading (Collection.values c) n)
     = Z.to_nat (Z.min n (Collection.size c))
   ∧ length (trailing (Collection.keys c) n)
     = Z.to_nat (Z.min n (Collection.size c)))
  ∧ (n ≤ 1 →
     Collection.first c (Some n) = Item (head (Collection.values c))
     ∧ Collection.firstKey c (Some n) = Item (head (Collection.keys c))
     ∧ Collection.last c (Some n) = Item (list.last (Collection.values c))
     ∧ Collection.lastKey c (Some n) = Item (list.last (Collection.keys c))).
Proof.
  split; intros Hn.
  - unfold Collection.first, Collection.firstKey, Collection.last,
      Collection.lastKey.
    rewrite at_most_one_large by done. simpl.
    rewrite !slice_leading, !slice_trailing by lia.
    split_and!; try done.
    + unfold leading. rewrite length_take. unfold Collection.size, Collection.values.
      rewrite length_fmap. lia.
    + unfold trailing. rewrite length_drop. unfold Collection.size, Collection.keys.
      rewrite length_fmap. lia.
  - unfold Collection.first, Collection.firstKey, Collection.last,
      Collection.lastKey.
    rewrite at_most_one_small by done.
    assert (Hlast : ∀ A (l : list A),
      Collection.index l (Z.of_nat (length l) - 1) = list.last l).
    { intros A l. unfold Collection.index. rewrite last_lookup.
      destruct l as [|a l]; [done |].
      destruct (Z.ltb_spec (Z.of_nat (length (a :: l)) - 1) 0);
        [simpl in *; lia |].
      f_equal. simpl. lia. }
    by rewrite !Hlast.
Qed.

Lemma positional_sequences_witness :
  (Collection.first abc (Some 2) = Items ["a"; "b"]
   ∧ Collection.last abc (Some 2) = Items ["b"; "c"])
  ∧ (Collection.firstKey abc (Some 1) = Item (Some 1)
     ∧ Collection.lastKey abc (Some 1) = Item (Some 3)).
Proof.
  split.
  - destruct (proj1 (positional_sequences abc 2) ltac:(lia))
      as (Hf & _ & Hl & _).
    split; [exact Hf | exact Hl].
  - destruct (proj2 (positional_sequences abc 1) ltac:(lia))
      as (_ & Hf & _ & Hl).
    split; [exact Hf | exact Hl].
Defined.

(** C8 as stated fails for [n ≤ 1]: [first(1)] and [first(0)] return the
    value ['a'] itself, not a sequence of up to [n] leading values. *)
Lemma first_small_amount_is_no_sequence :
  Collection.first abc (Some 1) ≠ Items (leading (Collection.values abc) 1)
  ∧ Collection.first abc (Some 0) ≠ Items (leading (Collection.values abc) 0)
  ∧ Collection.first abc (Some 0) = Item (Some "a").
Proof. split_and!; [discriminate | discriminate | reflexivity]. Qed.

(** ** Structural: [equal] *)

Section EqualFacts.
Context {K V : Type} `{!EqDecision K}.
Implicit Types (m c es : list (K * V)) (h : gmap loc (list (K * V))).

Lemma equal_loop_true (eq : V → V → bool) c es :
  Collection.equal_loop eq c es = true
  ↔ ∀ k v, (k, v) ∈ es → ∃ w, Collection.map_get c k = Some w ∧ eq w v = true.
Proof.
  induction es as [|[k v] es IH]; simpl.
  - split; [| done]. intros _ k v Hin. by apply elem_of_nil in Hin.
  - unfold Collection.map_has.
    destruct (Collection.map_get c k) as [w|] eqn:Hget; simpl.
    + destruct (eq w v) eqn:Heq; simpl.
      * rewrite IH. split.
        -- intros Hall k' v' [[= -> ->]|Hin]%elem_of_cons; eauto.
        -- intros Hall k' v' Hin. apply Hall. by right.
      * split; [done |]. intros Hall.
        destruct (Hall k v) as (w' & Hw' & Heq'); [left |]. congruence.
    + split; [done |]. intros Hall.
      destruct (Hall k v) as (w' & Hw' & _); [left |]. congruence.
Qed.

End EqualFacts.

(** C9, amended.  [equal(other, {deep: true})] throws the
    missing-capability error if and only if no deep-equality function is
    registered and, besides, [other] is a collection of the same size as
    this one and another object: the size test and the identity test come
    first and answer without it.  When [deep] is false or absent, [equal]
    never throws and compares the values with the strict equality [===]:
    it is true exactly when [other] is a collection of the same size that
    is this very object or holds, for every entry of this collection, the
    key with a value strictly equal to the entry's. *)
Theorem equal_missing_capability {K V} `{!EqDecision K}
    (strict_equal : V → V → bool)
    (lodashIsEqual : option (V → V → bool)) (h : gmap loc (list (K * V)))
    (this : loc) (collection : option loc)
    (options : option CollectionEqualOptions) :
  (∀ msg,
     Collection.equal strict_equal lodashIsEqual h this collection options
     = Throw msg
     ↔ msg = Collection.missing_lodash_error
       ∧ default false (options ≫= deep) = true
       ∧ lodashIsEqual = None
       ∧ ∃ o, collection = Some o ∧ o ≠ this
              ∧ Collection.size (h !!! this) = Collection.size (h !!! o))
  ∧ (default false (options ≫= deep) = false →
     ∃ b, Collection.equal strict_equal lodashIsEqual h this collection options
          = Return b
          ∧ (b = true
             ↔ ∃ o, collection = Some o
                    ∧ Collection.size (h !!! this) = Collection.size (h !!! o)
                    ∧ (o = this
                       ∨ ∀ k v, (k, v) ∈ h !!! this →
                           ∃ w, Collection.map_get (h !!! o) k = Some w
                                ∧ strict_equal w v = true))).
Proof.
  unfold Collection.equal. case_bool_decide as Hsize.
  { split.
    - intros msg. split; [done |]. intros (_ & _ & _ & o & -> & _ & Heq).
      simpl in Hsize. congruence.
    - intros _. exists false. split; [done |]. split; [done |].
      intros (o & -> & Heq & _). simpl in Hsize. congruence. }
  destruct collection as [o|]; [| discriminate Hsize].
  assert (Heq : Collection.size (h !!! this) = Collection.size (h !!! o))
    by (simpl in Hsize; congruence).
  case_bool_decide as Hsame.
  { simplify_eq. split.
    - intros msg. split; [done |]. by intros (_ & _ & _ & o' & [= <-] & ? & _).
    - intros _. exists true. split; [done |]. split; [| done]. eauto. }
  assert (Hne : o ≠ this) by congruence.
  destruct (default false (options ≫= deep)) eqn:Hdeep.
  - destruct lodashIsEqual as [f|]; (split; [| done]); intros msg.
    + split; [done |]. by intros (_ & _ & ? & _).
    + split; [intros [= <-]; eauto 10 | by intros [-> _]].
  - split.
    + intros msg. split; [done |]. by intros (_ & ? & _).
    + intros _. eexists. split; [done |].
      unfold Collection.entries. rewrite equal_loop_true. split.
      * intros Hall. exists o. split_and!; [done | done |]. by right.
      * by intros (o' & [= <-] & _ & [? | Hall]).
Qed.

Lemma equal_missing_capability_witness :
  (∃ b, Collection.equal string_strict_equal None shelf 1%positive
          (Some 3%positive) None = Return b)
  ∧ Collection.equal string_strict_equal None shelf 1%positive
      (Some 3%positive) (Some {| deep := Some true |})
    = Throw Collection.missing_lodash_error.
Proof.
  split.
  - destruct (proj2 (equal_missing_capability string_strict_equal None
      shelf 1%positive (Some 3%positive) None) eq_refl) as (b & Hb & _).
    by exists b.
  - apply (equal_missing_capability string_strict_equal None
      shelf 1%positive (Some 3%positive) (Some {| deep := Some true |})).
    split_and!; try reflexivity.
    exists 3%positive. split_and!; [reflexivity | discriminate | reflexivity].
Defined.

(** C9 as stated fails: no deep-equality function is registered and
    [deep: true] is asked for, yet [equal] answers [false] (the sizes
    differ) or [true] (the same object) instead of throwing. *)
Lemma equal_deep_without_lodash_may_answer :
  Collection.equal string_strict_equal None shelf 1%positive
    (Some 2%positive) (Some {| deep := Some true |}) = Return false
  ∧ Collection.equal string_strict_equal None shelf 1%positive
      (Some 1%positive) (Some {| deep := Some true |}) = Return true.
Proof. split; reflexivity. Qed.

(** C10. [equal] called with [null] or [undefined] returns [false] and
    does not throw: the size of a missing argument is [undefined], which is
    never the size of this collection. *)
Theorem equal_missing_argument_false {K V} `{!EqDecision K}
    (strict_equal : V → V → bool)
    (lodashIsEqual : option (V → V → bool)) (h : gmap loc (list (K * V)))
    (this : loc) (options : option CollectionEqualOptions) :
  Collection.equal strict_equal lodashIsEqual h this None options = Return false.
Proof. unfold Collection.equal. by rewrite bool_decide_true. Qed.

(** ** Structural: [concat] *)

Section ConcatFacts.
Context {K V : Type} `{!EqDecision K}.
Implicit Types (m c es : list (K * V)) (h : gmap loc (list (K * V))).

Lemma map_get_set_eq m k v :
  Collection.map_get (Collection.map_set m k v) k = Some v.
Proof.
  induction m as [|[k' v'] m IH]; simpl.
  - by rewrite decide_True.
  - destruct (decide (k' = k)) as [->|Hne]; simpl.
    + by rewrite decide_True.
    + by rewrite decide_False.
Qed.

Lemma map_get_set_ne m k v k' :
  k ≠ k' →
  Collection.map_get (Collection.map_set m k v) k' = Collection.map_get m k'.
Proof.
  intros Hne. induction m as [|[k0 v0] m IH]; simpl.
  - by rewrite decide_False.
  - destruct (decide (k0 = k)) as [->|Hne0]; simpl.
    + by rewrite !decide_False.
    + destruct (decide (k0 = k')); [done | apply IH].
Qed.

Lemma map_get_None m k :
  k ∉ Collection.keys m → Collection.map_get m k = None.
Proof.
  unfold Collection.keys. induction m as [|[k' v'] m IH]; simpl; [done |].
  intros [Hne Hk]%not_elem_of_cons. rewrite decide_False by done. by apply IH.
Qed.

(** Overlaying the entries of a map: its own binding of a key wins. *)
Lemma set_loop_get es :
  ∀ m k,
    Collection.wf es →
    Collection.map_get (foldl (λ m e, Collection.map_set m e.1 e.2) m es) k
    = match Collection.map_get es k with
      | Some v => Some v
      | None => Collection.map_get m k
      end.
Proof.
  unfold Collection.wf, Collection.keys.
  induction es as [|[k' v'] es IH]; intros m k Hwf; simpl; [done |].
  apply NoDup_cons in Hwf as [Hk' Hwf]. rewrite IH by done.
  destruct (decide (k' = k)) as [->|Hne].
  - rewrite map_get_None by done. apply map_get_set_eq.
  - destruct (Collection.map_get es k); [done |]. by apply map_get_set_ne.
Qed.

Lemma heap_wf_lookup_total h l : Collection.heap_wf h → Collection.wf (h !!! l).
Proof.
  intros Hwf. rewrite lookup_total_alt.
  destruct (h !! l) as [c|] eqn:Hl; simpl; [by eapply Hwf |].
  apply NoDup_nil_2.
Qed.

(** The inner loop of [concat] only writes the object [merged]. *)
Lemma set_at_loop h merged m es :
  h !! merged = Some m →
  foldl (λ h e, Collection.set_at h merged e.1 e.2) h es
  = <[merged := foldl (λ m e, Collection.map_set m e.1 e.2) m es]> h.
Proof.
  revert h m. induction es as [|e es IH]; intros h m Hm; simpl.
  - by rewrite insert_id.
  - unfold Collection.set_at at 2. rewrite (lookup_total_correct _ _ _ Hm).
    erewrite IH by apply lookup_insert_eq. by rewrite insert_insert_eq.
Qed.

Lemma concat_loop h merged cs :
  ∀ m,
    h !! merged = None →
    (∀ l, Some l ∈ cs → l ∈ dom h) →
    foldl (λ h collection,
             match collection with
             | None => h
             | Some l =>
                 foldl (λ h e, Collection.set_at h merged e.1 e.2) h
                       (Collection.entries (h !!! l))
             end) (<[merged := m]> h) cs
    = <[merged := foldl (overlay h) m cs]> h.
Proof.
  intros m Hfresh. revert m.
  induction cs as [|[l|] cs IH]; intros m Hvalid; simpl; [done | |].
  - assert (l ≠ merged).
    { intros ->. specialize (Hvalid merged ltac:(left)).
      apply elem_of_dom in Hvalid as [? ?]. congruence. }
    rewrite (set_at_loop _ merged m) by apply lookup_insert_eq.
    rewrite insert_insert_eq. unfold Collection.entries.
    rewrite lookup_total_insert_ne by done.
    apply IH. intros l' Hl'. apply Hvalid. by right.
  - apply IH. intros l' Hl'. apply Hvalid. by right.
Qed.

Lemma concat_unfold h this cs :
  (∀ l, Some l ∈ cs → l ∈ dom h) →
  Collection.concat h this cs
  = (<[fresh (dom h) :=
         foldl (overlay h) (Collection.of_entries (h !!! this)) cs]> h,
     fresh (dom h)).
Proof.
  intros Hvalid. unfold Collection.concat, Collection.clone. f_equal.
  apply concat_loop; [| done].
  apply not_elem_of_dom, is_fresh.
Qed.

Lemma overlay_get h cs k :
  Collection.heap_wf h →
  ∀ m, Collection.map_get (foldl (overlay h) m cs) k
       = foldl (λ acc collection,
                  match collection with
                  | None => acc
                  | Some l =>
                      match Collection.map_get (h !!! l) k with
                      | Some v => Some v
                      | None => acc
                      end
                  end) (Collection.map_get m k) cs.
Proof.
  intros Hwf. induction cs as [|[l|] cs IH]; intros m; simpl; [done | |].
  - rewrite IH. f_equal. apply set_loop_get. by apply heap_wf_lookup_total.
  - apply IH.
Qed.

Lemma overlay_get_absent h post k acc :
  (∀ l, Some l ∈ post → Collection.map_get (h !!! l) k = None) →
  foldl (λ acc collection,
           match collection with
           | None => acc
           | Some l =>
               match Collection.map_get (h !!! l) k with
               | Some v => Some v
               | None => acc
               end
           end) acc post = acc.
Proof.
  revert acc. induction post as [|[l|] post IH]; intros acc Habs; simpl; [done | |].
  - rewrite (Habs l) by left. apply IH. intros l' Hl'. apply Habs. by right.
  - apply IH. intros l' Hl'. apply Habs. by right.
Qed.
End ConcatFacts.

(** C7, amended.  For every collection [c] and every sequence of
    collections in which [b] holds a key [k] and no collection after [b]
    holds [k], [c.concat([... b ...])] returns a new collection whose value
    at [k] is the value of [b] at [k]: the last collection holding the key
    wins.  The call writes only the new collection: [c] and every input
    collection are as they were. *)
Theorem concat_last_holder_wins {K V} `{!EqDecision K}
    (h : gmap loc (list (K * V))) (this : loc) (pre post : list (option loc))
    (b : loc) (k : K) (v : V) :
  Collection.heap_wf h →
  (∀ l, Some l ∈ pre ++ Some b :: post → l ∈ dom h) →
  Collection.map_get (h !!! b) k = Some v →
  (∀ l, Some l ∈ post → Collection.map_get (h !!! l) k = None) →
  let result := Collection.concat h this (pre ++ Some b :: post) in
  Collection.map_get (result.1 !!! result.2) k = Some v
  ∧ (result.2 ∉ dom h)
  ∧ (∀ l, l ∈ dom h → result.1 !! l = h !! l).
Proof.
  intros Hwf Hvalid Hb Hpost result. unfold result.
  rewrite concat_unfold by done. simpl. split_and!.
  - rewrite lookup_total_insert_eq, overlay_get by done.
    rewrite foldl_app. simpl. rewrite Hb. by apply overlay_get_absent.
  - apply is_fresh.
  - intros l Hl. apply lookup_insert_ne. intros <-. by apply is_fresh in Hl.
Qed.

Lemma shelf_wf : Collection.heap_wf shelf.
Proof.
  intros l c. unfold shelf.
  rewrite !lookup_insert_Some, lookup_empty. unfold Collection.wf.
  intros [[_ <-]|[_ [[_ <-]|[_ [[_ <-]|[_ [[_ <-]|[_ ?]]]]]]]]; simpl;
    try done; apply (bool_decide_unpack _); reflexivity.
Defined.

Lemma concat_last_holder_wins_witness :
  let result := Collection.concat shelf 1%positive [Some 2%positive; Some 4%positive; None] in
  Collection.map_get (result.1 !!! result.2) 1 = Some "b"
  ∧ result.1 !! 1%positive = shelf !! 1%positive.
Proof.
  destruct (concat_last_holder_wins shelf 1%positive [] [Some 4%positive; None]
              2%positive 1 "b" shelf_wf) as (Hv & _ & Hframe).
  - intros l Hl. apply elem_of_dom.
    apply elem_of_cons in Hl as [[= ->]|Hl]; [by eexists |].
    apply elem_of_cons in Hl as [[= ->]|Hl]; [by eexists |].
    apply elem_of_cons in Hl as [[=]|Hl]. by apply elem_of_nil in Hl.
  - reflexivity.
  - intros l Hl.
    apply elem_of_cons in Hl as [[= ->]|Hl]; [reflexivity |].
    apply elem_of_cons in Hl as [[=]|Hl]. by apply elem_of_nil in Hl.
  - split; [exact Hv |]. apply Hframe, elem_of_dom. by eexists.
Defined.

(** C7 as stated fails: the collection at [2] shares the key [1] with this
    collection and is in the sequence, but the collection at [3], later in
    the sequence, holds the key too; the merged value is ["d"], not the
    value ["b"] of the collection at [2]. *)
Lemma concat_later_holder_overrides :
  let result := Collection.concat shelf 1%positive [Some 2%positive; Some 3%positive] in
  Collection.map_has (shelf !!! 1%positive) 1 = true
  ∧ Collection.map_get (shelf !!! 2%positive) 1 = Some "b"
  ∧ Collection.map_get (result.1 !!! result.2) 1 = Some "d"
  ∧ Collection.map_get (result.1 !!! result.2) 1
    ≠ Collection.map_get (shelf !!! 2%positive) 1.
Proof. vm_compute. split_and!; [reflexivity.. | discriminate]. Qed.

(** * Further properties of the methods *)

(** ** Transform *)

Section TransformFacts.
Context {K V : Type}.
Implicit Types (c es : list (K * V)) (p : V → K → list (K * V) → bool).

Lemma find_loop_filter p c es :
  Collection.find_loop p c es = snd <$> head (List.filter (λ e, p e.2 e.1 c) es).
Proof.
  induction es as [|[k v] es IH]; simpl; [done |].
  by destruct (p v k c).
Qed.

Lemma some_loop_exists p c es :
  Collection.some_loop p c es = true
  ↔ ∃ k v, (k, v) ∈ es ∧ p v k c = true.
Proof.
  induction es as [|[k v] es IH]; simpl.
  - split; [done |]. intros (k & v & Hin & _). by apply elem_of_nil in Hin.
  - destruct (p v k c) eqn:Hp.
    + split; [| done]. intros _. exists k, v. split; [left | done].
    + rewrite IH. split.
      * intros (k' & v' & Hin & Hp'). exists k', v'. split; [by right | done].
      * intros (k' & v' & Hin & Hp').
        apply elem_of_cons in Hin as [[= -> ->]|Hin]; [congruence |]. eauto.
Qed.

Lemma every_loop_forall p c es :
  Collection.every_loop p c es = true
  ↔ ∀ k v, (k, v) ∈ es → p v k c = true.
Proof.
  induction es as [|[k v] es IH]; simpl.
  - split; [| done]. intros _ k v Hin. by apply elem_of_nil in Hin.
  - destruct (p v k c) eqn:Hp; simpl.
    + rewrite IH. split.
      * intros Hall k' v' [[= -> ->]|Hin]%elem_of_cons; eauto.
      * intros Hall k' v' Hin. apply Hall. by right.
    + split; [done |]. intros Hall. rewrite <- Hp. apply Hall. left.
Qed.

Lemma every_loop_some_loop p c es :
  Collection.every_loop p c es
  = negb (Collection.some_loop (λ v k c, negb (p v k c)) c es).
Proof.
  induction es as [|[k v] es IH]; simpl; [done |].
  by destruct (p v k c).
Qed.

Lemma push_loop_fmap {A B} (g : A → B) (l : list A) :
  ∀ acc, foldl (λ result e, result ++ [g e]) acc l = acc ++ (g <$> l).
Proof.
  induction l as [|a l IH]; intros acc; simpl; [by rewrite app_nil_r |].
  rewrite IH. by rewrite <- app_assoc.
Qed.
End TransformFacts.

(** X1. [find] returns the value of the first entry, in insertion order,
    that satisfies the predicate: every entry before it fails the
    predicate; it returns [null] exactly when no entry satisfies it. *)
Theorem find_first_match {K V} (p : V → K → list (K * V) → bool)
    (c : list (K * V)) :
  (∀ v, Collection.find p c = Some v
        ↔ ∃ pre k post, c = pre ++ (k, v) :: post ∧ p v k c = true
             ∧ ∀ k' v', (k', v') ∈ pre → p v' k' c = false)
  ∧ (Collection.find p c = None ↔ ∀ k v, (k, v) ∈ c → p v k c = false).
Proof.
  unfold Collection.find, Collection.entries.
  assert (Hgen : ∀ es v, Collection.find_loop p c es = Some v
    ↔ ∃ pre k post, es = pre ++ (k, v) :: post ∧ p v k c = true
         ∧ ∀ k' v', (k', v') ∈ pre → p v' k' c = false).
  { induction es as [|[k0 v0] es IH]; intros v; simpl.
    - split; [done |]. intros (pre & k & post & Heq & _). by destruct pre.
    - destruct (p v0 k0 c) eqn:Hp.
      + split.
        * intros [= <-]. exists [], k0, es. split_and!; [done | done |].
          intros k' v' Hin. by apply elem_of_nil in Hin.
        * intros ([|[k1 v1] pre] & k & post & Heq & Hpk & Hpre); simplify_eq/=;
            [done |].
          specialize (Hpre k1 v1 ltac:(left)). congruence.
      + rewrite IH. split.
        * intros (pre & k & post & -> & Hpk & Hpre).
          exists ((k0, v0) :: pre), k, post. split_and!; [done | done |].
          intros k' v' [[= -> ->]|Hin]%elem_of_cons; eauto.
        * intros ([|[k1 v1] pre] & k & post & Heq & Hpk & Hpre); simplify_eq/=;
            [congruence |].
          exists pre, k, post. split_and!; [done | done |].
          intros k' v' Hin. apply Hpre. by right. }
  split; [apply Hgen |].
  rewrite find_loop_filter. split.
  - intros Hnone k v Hin. destruct (p v k c) eqn:Hp; [| done].
    assert (Hin' : (k, v) ∈ List.filter (λ e, p e.2 e.1 c) c).
    { apply list_elem_of_In, filter_In. split; [by apply list_elem_of_In | done]. }
    destruct (List.filter _ c); [by apply elem_of_nil in Hin' | done].
  - intros Hall. destruct (List.filter _ c) as [|[k v] l] eqn:Hf; [done |].
    assert (Hin : In (k, v) (List.filter (λ e, p e.2 e.1 c) c))
      by (rewrite Hf; left; done).
    apply filter_In in Hin as [Hin Hp]. simpl in Hp.
    rewrite (Hall k v) in Hp; [done | by apply list_elem_of_In].
Qed.

(** X2. [some] is true exactly when some entry satisfies the predicate; on
    an empty collection it is false. *)
Theorem some_exists {K V} (p : V → K → list (K * V) → bool) (c : list (K * V)) :
  (Collection.some p c = true ↔ ∃ k v, (k, v) ∈ c ∧ p v k c = true)
  ∧ Collection.some p [] = false.
Proof. split; [apply some_loop_exists | done]. Qed.

(** X3. [every] is true exactly when all entries satisfy the predicate, so
    it is true on an empty collection; it is the negation of [some] on the
    negated predicate. *)
Theorem every_forall {K V} (p : V → K → list (K * V) → bool) (c : list (K * V)) :
  (Collection.every p c = true ↔ ∀ k v, (k, v) ∈ c → p v k c = true)
  ∧ Collection.every p [] = true
  ∧ Collection.every p c = negb (Collection.some (λ v k c, negb (p v k c)) c).
Proof.
  split_and!; [apply every_loop_forall | done | apply every_loop_some_loop].
Qed.

(** X4. [some] answers whether [find] finds something, and what [find]
    returns is the value of the first pair that [filter] keeps. *)
Theorem find_some_filter {K V} `{!EqDecision K}
    (p : V → K → list (K * V) → bool) (c : list (K * V)) :
  (Collection.some p c = true ↔ is_Some (Collection.find p c))
  ∧ Collection.find p c
    = snd <$> head (Collection.result_pairs (Collection.filter p c None)).
Proof.
  split.
  - unfold Collection.some, Collection.find.
    induction (Collection.entries c) as [|[k v] es IH]; simpl.
    + split; [done | by intros [? ?]].
    + destruct (p v k c); [| done]. split; [eauto | done].
  - unfold Collection.find, Collection.filter. simpl.
    rewrite filter_push_filter. apply find_loop_filter.
Qed.

(** X5. [map] returns one result per entry, in insertion order, each
    computed from the value, the key and the collection; mapping every
    entry to its value gives the values of the collection. *)
Theorem map_entries {K V T} (f : V → K → list (K * V) → T) (c : list (K * V)) :
  Collection.map f c = (λ e, f e.2 e.1 c) <$> c
  ∧ length (Collection.map f c) = length c
  ∧ (∀ i, Collection.map f c !! i = (λ e, f e.2 e.1 c) <$> c !! i)
  ∧ Collection.map (λ v _ _, v) c = Collection.values c.
Proof.
  assert (H : ∀ T' (g : V → K → list (K * V) → T'),
    Collection.map g c = (λ e, g e.2 e.1 c) <$> c).
  { intros T' g. unfold Collection.map, Collection.entries.
    by rewrite (push_loop_fmap (λ e, g e.2 e.1 c)). }
  split_and!.
  - apply H.
  - by rewrite H, length_fmap.
  - intros i. by rewrite H, list_lookup_fmap.
  - by rewrite H.
Qed.

(** X6. [forEach] runs the callback once per entry, in insertion order,
    with the value, the key and the collection itself: a callback that
    records its arguments records exactly the entries; on an empty
    collection the callback is not run. *)
Theorem forEach_visits_entries {K V} (c : list (K * V)) :
  Collection.forEach (λ v k this log, log ++ [(k, v, this)]) c []
  = (λ e, (e.1, e.2, c)) <$> c
  ∧ ∀ S (f : V → K → list (K * V) → S → S) s,
      Collection.forEach f (@nil (K * V)) s = s.
Proof.
  split; [| done]. unfold Collection.forEach, Collection.entries.
  by rewrite (push_loop_fmap (λ e, (e.1, e.2, c))).
Qed.

(** ** Filter, again *)

Section FilterMore.
Context {K V : Type} `{!EqDecision K}.
Implicit Types (c : list (K * V)) (f : V → K → list (K * V) → bool).

Lemma filter_pairs f c options :
  Collection.wf c →
  Collection.result_pairs (Collection.filter f c options)
  = List.filter (λ e, f e.2 e.1 c) c.
Proof.
  intros Hwf. unfold Collection.filter.
  repeat case_bool_decide; simpl; unfold Collection.entries;
    rewrite ?filter_set_push by done; apply filter_push_filter.
Qed.

Lemma list_filter_sublist {A} (g : A → bool) (l : list A) :
  List.filter g l `sublist_of` l.
Proof.
  induction l as [|a l IH]; simpl; [done |].
  destruct (g a); by constructor.
Qed.

Lemma list_filter_id_iff {A} (g : A → bool) (l : list A) :
  List.filter g l = l ↔ ∀ a, a ∈ l → g a = true.
Proof.
  split.
  - intros Heq a Ha. apply list_elem_of_In in Ha. rewrite <- Heq in Ha.
    by apply filter_In in Ha as [_ ?].
  - intros Hall. apply forallb_filter_id, forallb_forall.
    intros a Ha. apply Hall. by apply list_elem_of_In.
Qed.

Lemma list_filter_nil_iff {A} (g : A → bool) (l : list A) :
  List.filter g l = [] ↔ ∀ a, a ∈ l → g a = false.
Proof.
  induction l as [|a l IH]; simpl.
  - split; [| done]. intros _ a Ha. by apply elem_of_nil in Ha.
  - destruct (g a) eqn:Hg.
    + split; [done |]. intros Hall. rewrite (Hall a) in Hg; [done | left].
    + rewrite IH. split.
      * intros Hall b [->|Hb]%elem_of_cons; eauto.
      * intros Hall b Hb. apply Hall. by right.
Qed.
End FilterMore.

(** X7. In every shape, what [filter] returns on a collection holds exactly
    the entries that satisfy the predicate, in the order they have in the
    collection, and no key twice: the [Map] or [Collection] returned is a
    well-formed map. *)
Theorem filter_keeps_matching_entries {K V} `{!EqDecision K}
    (f : V → K → list (K * V) → bool) (c : list (K * V))
    (options : option CollectionFilterOptions) :
  Collection.wf c →
  let kept := Collection.result_pairs (Collection.filter f c options) in
  (∀ k v, (k, v) ∈ kept ↔ (k, v) ∈ c ∧ f v k c = true)
  ∧ kept `sublist_of` c
  ∧ Collection.wf kept.
Proof.
  intros Hwf kept. unfold kept. rewrite filter_pairs by done. split_and!.
  - intros k v. rewrite !list_elem_of_In, filter_In. done.
  - apply list_filter_sublist.
  - unfold Collection.wf, Collection.keys in *.
    eapply sublist_NoDup; [done |]. apply fmap_sublist, list_filter_sublist.
Qed.

Lemma abc_wf : Collection.wf abc.
Proof. apply (bool_decide_unpack (NoDup [1; 2; 3])). reflexivity. Defined.

Lemma filter_keeps_matching_entries_witness :
  Collection.wf
    (Collection.result_pairs
       (Collection.filter (λ _ k _, bool_decide (k ≠ 2)) abc
          (Some {| return_ := Some "collection" |}))).
Proof.
  exact (proj2 (proj2 (filter_keeps_matching_entries
    (λ _ k _, bool_decide (k ≠ 2)) abc
    (Some {| return_ := Some "collection" |}) abc_wf))).
Defined.

(** X8. [filter] keeps every entry exactly when [every] is true of the
    predicate, and keeps nothing exactly when [some] is false of it. *)
Theorem filter_every_some {K V} `{!EqDecision K}
    (f : V → K → list (K * V) → bool) (c : list (K * V))
    (options : option CollectionFilterOptions) :
  Collection.wf c →
  (Collection.result_pairs (Collection.filter f c options) = c
   ↔ Collection.every f c = true)
  ∧ (Collection.result_pairs (Collection.filter f c options) = []
     ↔ Collection.some f c = false).
Proof.
  intros Hwf. rewrite filter_pairs by done. split.
  - rewrite list_filter_id_iff. unfold Collection.every.
    rewrite every_loop_forall. unfold Collection.entries. split.
    + intros Hall k v Hin. by apply (Hall (k, v)).
    + intros Hall [k v] Hin. by apply Hall.
  - rewrite list_filter_nil_iff, <- not_true_iff_false.
    unfold Collection.some. rewrite some_loop_exists.
    unfold Collection.entries. split.
    + intros Hall (k & v & Hin & Hp). specialize (Hall (k, v) Hin). simpl in Hall.
      congruence.
    + intros Hno [k v] Hin. simpl. apply not_true_iff_false.
      intros Hp. apply Hno. eauto.
Qed.

Lemma filter_every_some_witness :
  Collection.result_pairs
    (Collection.filter (λ _ k _, bool_decide (0 < k)) abc None) = abc.
Proof.
  apply (filter_every_some (λ _ k _, bool_decide (0 < k)) abc None abc_wf).
  reflexivity.
Defined.

(** ** Positional, again *)

Lemma index_last {A} (l : list A) :
  Collection.index l (Z.of_nat (length l) - 1) = list.last l.
Proof.
  unfold Collection.index. rewrite last_lookup.
  destruct l as [|a l]; [done |].
  destruct (Z.ltb_spec (Z.of_nat (length (a :: l)) - 1) 0); [simpl in *; lia |].
  f_equal. simpl. lia.
Qed.

(** X9. Without an amount, [first], [firstKey], [last] and [lastKey] return
    [undefined] exactly on an empty collection, the one for which the
    getter [empty] is true. *)
Theorem positional_undefined_iff_empty {K V} (c : list (K * V)) :
  (Collection.empty c = true ↔ c = [])
  ∧ (Collection.first c None = Item None ↔ Collection.empty c = true)
  ∧ (Collection.firstKey c None = Item None ↔ Collection.empty c = true)
  ∧ (Collection.last c None = Item None ↔ Collection.empty c = true)
  ∧ (Collection.lastKey c None = Item None ↔ Collection.empty c = true).
Proof.
  assert (He : Collection.empty c = true ↔ c = []).
  { unfold Collection.empty, Collection.size. rewrite bool_decide_eq_true.
    destruct c; simpl; split; (done || lia). }
  unfold Collection.first, Collection.firstKey, Collection.last,
    Collection.lastKey. simpl. rewrite !index_last, He.
  unfold Collection.values, Collection.keys.
  split_and!; [done | | | |]; destruct c as [|[k v] c]; simpl;
    try (split; done).
  - split; [| done]. rewrite last_cons. by destruct (list.last _).
  - split; [| done]. rewrite last_cons. by destruct (list.last _).
Qed.

(** X10. For [n ≥ 2] and [m ≥ 2] with [n + m = size], the values of
    [first(n)] followed by the values of [last(m)] are the values of the
    collection: the two ends do not overlap and leave nothing out. *)
Theorem first_last_partition {K V} (c : list (K * V)) (n m : Z) :
  2 ≤ n → 2 ≤ m → n + m = Collection.size c →
  ∃ front back,
    Collection.first c (Some n) = Items front
    ∧ Collection.last c (Some m) = Items back
    ∧ front ++ back = Collection.values c
    ∧ Z.of_nat (length front) = n ∧ Z.of_nat (length back) = m.
Proof.
  intros Hn Hm Hsize. unfold Collection.first, Collection.last.
  rewrite !at_most_one_large by done. simpl.
  rewrite slice_leading, slice_trailing by lia.
  eexists _, _. split_and!; [done | done | | |].
  - unfold leading, trailing, Collection.size, Collection.values in *.
    rewrite length_fmap.
    replace (length c - Z.to_nat (Z.min m (Z.of_nat (length c))))%nat
      with (Z.to_nat (Z.min n (Z.of_nat (length c)))) by lia.
    apply take_drop.
  - unfold leading, Collection.size, Collection.values in *.
    rewrite length_take, length_fmap. lia.
  - unfold trailing, Collection.size, Collection.values in *.
    rewrite length_drop, length_fmap. lia.
Qed.

Lemma first_last_partition_witness :
  ∃ front back,
    Collection.first ten (Some 4) = Items front
    ∧ Collection.last ten (Some 6) = Items back
    ∧ front ++ back = Collection.values ten
    ∧ Z.of_nat (length front) = 4 ∧ Z.of_nat (length back) = 6.
Proof.
  apply (first_last_partition ten 4 6); [lia | lia | reflexivity].
Defined.

(** X11. Asked for at least two items and at least as many as the
    collection has, [first] and [last] both return all the values, and
    [firstKey] and [lastKey] all the keys, in insertion order. *)
Theorem positional_overshoot {K V} (c : list (K * V)) (n : Z) :
  2 ≤ n → Collection.size c ≤ n →
  Collection.first c (Some n) = Items (Collection.values c)
  ∧ Collection.last c (Some n) = Items (Collection.values c)
  ∧ Collection.firstKey c (Some n) = Items (Collection.keys c)
  ∧ Collection.lastKey c (Some n) = Items (Collection.keys c).
Proof.
  intros Hn Hsize.
  unfold Collection.first, Collection.firstKey, Collection.last,
    Collection.lastKey.
  rewrite !at_most_one_large by done. simpl.
  rewrite !slice_leading, !slice_trailing by lia.
  unfold leading, trailing, Collection.size, Collection.values,
    Collection.keys in *.
  rewrite !length_fmap.
  replace (length c - Z.to_nat (Z.min n (Z.of_nat (length c))))%nat
    with 0%nat by lia.
  rewrite !drop_0, !take_ge by (rewrite length_fmap; lia). done.
Qed.

Lemma positional_overshoot_witness :
  Collection.first abc (Some 7) = Items ["a"; "b"; "c"]
  ∧ Collection.last abc (Some 7) = Items ["a"; "b"; "c"]
  ∧ Collection.firstKey abc (Some 7) = Items [1; 2; 3]
  ∧ Collection.lastKey abc (Some 7) = Items [1; 2; 3].
Proof.
  apply (positional_overshoot abc 7); [lia | unfold Collection.size; simpl; lia].
Defined.

(** ** The built-in [set] and [get] on well-formed maps *)

Section MapFacts.
Context {K V : Type} `{!EqDecision K}.
Implicit Types (m c es : list (K * V)).

Lemma map_get_Some_elem m k v :
  Collection.map_get m k = Some v → (k, v) ∈ m.
Proof.
  induction m as [|[k' v'] m IH]; simpl; [done |].
  destruct (decide (k' = k)) as [->|Hne].
  - intros [= ->]. left.
  - intros Hget. right. by apply IH.
Qed.

Lemma map_get_elem_wf m k v :
  Collection.wf m → (k, v) ∈ m → Collection.map_get m k = Some v.
Proof.
  unfold Collection.wf, Collection.keys.
  induction m as [|[k' v'] m IH]; simpl; intros Hwf Hin.
  - by apply elem_of_nil in Hin.
  - apply NoDup_cons in Hwf as [Hk' Hwf].
    apply elem_of_cons in Hin as [[= -> ->]|Hin]; [by rewrite decide_True |].
    rewrite decide_False; [by apply IH |].
    intros ->. apply Hk'. by apply (list_elem_of_fmap_2 fst _ (k, v)).
Qed.

Lemma map_has_keys m k :
  Collection.map_has m k = true ↔ k ∈ Collection.keys m.
Proof.
  unfold Collection.map_has, Collection.keys.
  induction m as [|[k' v'] m IH]; simpl.
  - split; [done |]. intros Hin. by apply elem_of_nil in Hin.
  - destruct (decide (k' = k)) as [->|Hne].
    + split; [left | done].
    + rewrite IH. split; [by right |].
      by intros [?|?]%elem_of_cons.
Qed.

Lemma keys_map_set m k v :
  Collection.keys (Collection.map_set m k v)
  = if decide (k ∈ Collection.keys m) then Collection.keys m
    else Collection.keys m ++ [k].
Proof.
  unfold Collection.keys. induction m as [|[k' v'] m IH].
  - cbn [Collection.map_set fmap list_fmap].
    destruct (decide (k ∈ [])) as [Hin|_]; [by apply elem_of_nil in Hin | done].
  - cbn [Collection.map_set].
    destruct (decide (k' = k)) as [->|Hne].
    + rewrite decide_True; [done | left].
    + rewrite fmap_cons, IH. destruct (decide (k ∈ m.*1)) as [Hin|Hnin].
      * rewrite decide_True; [done | by right].
      * rewrite decide_False; [done |].
        by intros [?|?]%elem_of_cons.
Qed.

Lemma map_set_wf m k v :
  Collection.wf m → Collection.wf (Collection.map_set m k v).
Proof.
  unfold Collection.wf. rewrite keys_map_set. intros Hwf.
  destruct (decide (k ∈ Collection.keys m)) as [Hin|Hnin]; [done |].
  apply NoDup_app. split_and!; [done | | apply NoDup_singleton].
  intros x Hx Hs. apply list_elem_of_singleton in Hs as ->. done.
Qed.

Lemma map_set_same m k v :
  Collection.map_get m k = Some v → Collection.map_set m k v = m.
Proof.
  induction m as [|[k' v'] m IH]; simpl; [done |].
  destruct (decide (k' = k)) as [->|Hne].
  - by intros [= ->].
  - intros Hget. by rewrite IH.
Qed.

Lemma set_loop_wf_prefix es :
  ∀ m, Collection.wf m →
    Collection.wf (foldl (λ m e, Collection.map_set m e.1 e.2) m es)
    ∧ Collection.keys m
      `prefix_of` Collection.keys (foldl (λ m e, Collection.map_set m e.1 e.2) m es).
Proof.
  induction es as [|[k v] es IH]; intros m Hwf; simpl; [done |].
  destruct (IH (Collection.map_set m k v) (map_set_wf _ _ _ Hwf)) as [Hwf' Hpre].
  split; [done |]. etrans; [| done]. rewrite keys_map_set.
  destruct (decide (k ∈ Collection.keys m)); [done | by apply prefix_app_r].
Qed.

Lemma set_loop_agree es :
  ∀ m, (∀ k v, (k, v) ∈ es → Collection.map_get m k = Some v) →
    foldl (λ m e, Collection.map_set m e.1 e.2) m es = m.
Proof.
  induction es as [|[k v] es IH]; intros m Hagree; simpl; [done |].
  rewrite map_set_same by (apply Hagree; left).
  apply IH. intros k' v' Hin. apply Hagree. by right.
Qed.

Lemma of_entries_wf c : Collection.wf c → Collection.of_entries c = c.
Proof.
  intros Hwf. unfold Collection.of_entries.
  enough (H : ∀ l acc, NoDup (Collection.keys (acc ++ l)) →
    foldl (λ m e, Collection.map_set m e.1 e.2) acc l = acc ++ l)
    by (apply (H c []); done).
  unfold Collection.keys. induction l as [|[k v] l IH]; intros acc Hnd; simpl.
  - by rewrite app_nil_r.
  - rewrite map_set_fresh.
    + rewrite IH; [by rewrite <- app_assoc |]. by rewrite <- app_assoc.
    + rewrite fmap_app in Hnd. apply NoDup_app in Hnd as (_ & Hdisj & _).
      intros Hin. apply (Hdisj k Hin). left.
Qed.
End MapFacts.

(** X12. Setting a key that is new makes it the last key and its value the
    last value, and leaves the first key in place; setting a key that is
    there leaves the order of the keys, so the first and last keys, as they
    are. *)
Theorem set_then_positional {K V} `{!EqDecision K} (c : list (K * V))
    (k : K) (v : V) :
  (k ∉ Collection.keys c →
   Collection.lastKey (Collection.map_set c k v) None = Item (Some k)
   ∧ Collection.last (Collection.map_set c k v) None = Item (Some v)
   ∧ (c ≠ [] → Collection.firstKey (Collection.map_set c k v) None
               = Collection.firstKey c None))
  ∧ (k ∈ Collection.keys c →
     ∀ amount,
       Collection.firstKey (Collection.map_set c k v) amount
       = Collection.firstKey c amount
       ∧ Collection.lastKey (Collection.map_set c k v) amount
         = Collection.lastKey c amount).
Proof.
  split.
  - intros Hk. rewrite map_set_fresh by done.
    unfold Collection.lastKey, Collection.last, Collection.firstKey. simpl.
    rewrite !index_last. unfold Collection.keys, Collection.values.
    rewrite !fmap_app. simpl. rewrite !last_snoc.
    split_and!; [done | done |]. intros Hc. by destruct c.
  - intros Hk amount.
    unfold Collection.firstKey, Collection.lastKey.
    rewrite keys_map_set, decide_True by done. done.
Qed.

Lemma set_then_positional_witness :
  Collection.lastKey (Collection.map_set abc 9 "z") None = Item (Some 9)
  ∧ Collection.lastKey (Collection.map_set abc 1 "z") None = Item (Some 3).
Proof.
  destruct (set_then_positional abc 9 "z") as [Hnew _].
  destruct (set_then_positional abc 1 "z") as [_ Hold].
  split.
  - apply Hnew. apply (bool_decide_unpack _). reflexivity.
  - refine (eq_trans (proj2 (Hold _ None)) _); [| reflexivity].
    apply (bool_decide_unpack _). reflexivity.
Defined.

(** ** Structural, again: [clone] and [equal] *)

Section CloneEqualFacts.
Context {K V : Type} `{!EqDecision K}.
Implicit Types (c : list (K * V)) (h : gmap loc (list (K * V)))
  (eq : V → V → bool).


Lemma elem_of_values c k v : (k, v) ∈ c → v ∈ Collection.values c.
Proof. intros Hin. by apply (list_elem_of_fmap_2 snd _ (k, v)). Qed.

Lemma elem_of_keys c k v : (k, v) ∈ c → k ∈ Collection.keys c.
Proof. intros Hin. by apply (list_elem_of_fmap_2 fst _ (k, v)). Qed.


(** [equal] on a collection, statement by statement. *)
Lemma equal_unfold eq lodashIsEqual h this o options :
  Collection.equal eq lodashIsEqual h this (Some o) options
  = if bool_decide (Collection.size (h !!! this) = Collection.size (h !!! o))
    then if bool_decide (this = o) then Return true
         else if default false (options ≫= deep)
              then match lodashIsEqual with
                   | None => Throw Collection.missing_lodash_error
                   | Some f => Return (Collection.equal_loop f (h !!! o) (h !!! this))
                   end
              else Return (Collection.equal_loop eq (h !!! o) (h !!! this))
    else Return false.
Proof.
  unfold Collection.equal. simpl.
  destruct (decide (Collection.size (h !!! this) = Collection.size (h !!! o)))
    as [Hsize|Hsize].
  - rewrite (bool_decide_true (Collection.size _ = _)) by done.
    rewrite (bool_decide_false (_ ≠ _))
      by (intros Hne; apply Hne; by rewrite Hsize).
    destruct (decide (this = o)) as [->|Hne].
    + by rewrite !bool_decide_true.
    + rewrite (bool_decide_false (Some _ = Some _)) by congruence.
      rewrite (bool_decide_false (this = o)) by done.
      destruct (default false (options ≫= deep)); [| done].
      by destruct lodashIsEqual.
  - rewrite (bool_decide_false (Collection.size _ = _)) by done.
    rewrite (bool_decide_true (_ ≠ _)); [done |].
    intros Heq. apply Hsize. by injection Heq.
Qed.

(** The entries of one collection found in another of the same size: the
    two have the same keys. *)
Lemma equal_loop_keys eq c1 c2 :
  Collection.wf c1 → length c1 = length c2 →
  Collection.equal_loop eq c2 c1 = true →
  Collection.keys c1 ≡ₚ Collection.keys c2.
Proof.
  intros Hwf1 Hlen Hloop. rewrite equal_loop_true in Hloop.
  apply submseteq_length_Permutation.
  - apply NoDup_submseteq; [done |].
    intros k [[k' v] [-> Hin]]%list_elem_of_fmap. simpl.
    destruct (Hloop k' v Hin) as (w & Hw & _).
    apply map_get_Some_elem in Hw. by eapply elem_of_keys.
  - unfold Collection.keys. rewrite !length_fmap. lia.
Qed.

Lemma equal_loop_sym eq c1 c2 :
  (∀ v w, eq v w = eq w v) →
  Collection.wf c1 → Collection.wf c2 → length c1 = length c2 →
  Collection.equal_loop eq c2 c1 = true →
  Collection.equal_loop eq c1 c2 = true.
Proof.
  intros Hsym Hwf1 Hwf2 Hlen Hloop.
  pose proof (equal_loop_keys eq c1 c2 Hwf1 Hlen Hloop) as Hkeys.
  rewrite equal_loop_true in Hloop. apply equal_loop_true.
  intros k w Hin.
  assert (Hk : k ∈ Collection.keys c1).
  { rewrite Hkeys. by eapply elem_of_keys. }
  apply list_elem_of_fmap in Hk as [[k' v] [-> Hin1]]. simpl in *.
  exists v. split; [by apply map_get_elem_wf |].
  destruct (Hloop k' v Hin1) as (w' & Hw' & Heq).
  rewrite (map_get_elem_wf c2 k' w Hwf2 Hin) in Hw'. injection Hw' as <-.
  by rewrite Hsym.
Qed.

Lemma equal_loop_identity eq c1 c2 :
  Collection.wf c1 → Collection.wf c2 → length c1 = length c2 →
  (∀ v w, v ∈ Collection.values c1 → w ∈ Collection.values c2 →
          eq w v = true ↔ w = v) →
  Collection.equal_loop eq c2 c1 = true ↔ c1 ≡ₚ c2.
Proof.
  intros Hwf1 Hwf2 Hlen Hid. rewrite equal_loop_true. split.
  - intros Hall. apply submseteq_length_Permutation; [| lia].
    apply NoDup_submseteq.
    + by apply (NoDup_fmap_1 fst).
    + intros [k v] Hin. destruct (Hall k v Hin) as (w & Hw & Heq).
      apply map_get_Some_elem in Hw.
      apply Hid in Heq as ->; [done | by eapply elem_of_values..].
  - intros Hperm k v Hin. exists v.
    assert (Hin2 : (k, v) ∈ c2) by (by rewrite <- Hperm).
    split; [by apply map_get_elem_wf |].
    apply Hid; [by eapply elem_of_values.. | done].
Qed.

Lemma wf_Permutation c1 c2 : c1 ≡ₚ c2 → Collection.wf c1 → Collection.wf c2.
Proof. unfold Collection.wf, Collection.keys. by intros ->. Qed.

Lemma map_get_Permutation c1 c2 k :
  Collection.wf c1 → c1 ≡ₚ c2 →
  Collection.map_get c1 k = Collection.map_get c2 k.
Proof.
  intros Hwf1 Hperm. pose proof (wf_Permutation _ _ Hperm Hwf1) as Hwf2.
  destruct (Collection.map_get c1 k) as [v|] eqn:H1.
  - symmetry. apply map_get_elem_wf; [done |]. rewrite <- Hperm.
    by apply map_get_Some_elem.
  - destruct (Collection.map_get c2 k) as [v|] eqn:H2; [| done].
    apply map_get_Some_elem in H2. rewrite <- Hperm in H2.
    apply (map_get_elem_wf _ _ _ Hwf1) in H2. congruence.
Qed.

Lemma equal_loop_Permutation eq c1 c1' c2 c2' :
  Collection.wf c2 → c1 ≡ₚ c1' → c2 ≡ₚ c2' →
  Collection.equal_loop eq c2 c1 = Collection.equal_loop eq c2' c1'.
Proof.
  intros Hwf2 Hp1 Hp2. apply eq_true_iff_eq. rewrite !equal_loop_true.
  split; intros Hall k v Hin.
  - rewrite <- (map_get_Permutation c2 c2') by done. apply Hall.
    by rewrite Hp1.
  - rewrite (map_get_Permutation c2 c2') by done. apply Hall.
    by rewrite <- Hp1.
Qed.
End CloneEqualFacts.

(** X13. [clone] returns a new object that holds the entries of this
    collection in the same order; this collection and every other object
    are as they were, and the heap still holds well-formed maps only. *)
Theorem clone_is_independent_copy {K V} `{!EqDecision K}
    (h : gmap loc (list (K * V))) (this : loc) :
  Collection.heap_wf h →
  let result := Collection.clone h this in
  (result.2 ∉ dom h)
  ∧ result.1 !! result.2 = Some (h !!! this)
  ∧ (∀ l, l ∈ dom h → result.1 !! l = h !! l)
  ∧ Collection.heap_wf result.1.
Proof.
  intros Hwf result. unfold result, Collection.clone. simpl.
  unfold Collection.entries.
  rewrite of_entries_wf by (by apply heap_wf_lookup_total).
  split_and!.
  - apply is_fresh.
  - apply lookup_insert_eq.
  - intros l Hl. apply lookup_insert_ne. intros <-. by apply is_fresh in Hl.
  - intros l c [[_ <-]|[_ Hl]]%lookup_insert_Some.
    + by apply heap_wf_lookup_total.
    + by eapply Hwf.
Qed.

Lemma clone_is_independent_copy_witness :
  (Collection.clone shelf 1%positive).1 !! (Collection.clone shelf 1%positive).2
  = Some [(1, "a"); (2, "x")].
Proof.
  exact (proj1 (proj2 (clone_is_independent_copy shelf 1%positive shelf_wf))).
Defined.



(** Without that, the clone need not be equal: a collection that holds
    [NaN] is not equal to its clone. *)
Lemma equal_clone_of_NaN :
  Collection.equal number_strict_equal None
    (Collection.clone nan_shelf 1%positive).1 1%positive
    (Some (Collection.clone nan_shelf 1%positive).2) None = Return false.
Proof. reflexivity. Qed.

(** X15. With strict equality, and when the strict equality of a value of
    the one collection and a value of the other is their identity (no
    [NaN], no [+0] against [-0]), [equal] is true exactly when the two
    collections hold the same entries, whatever their insertion orders. *)
Theorem equal_strict_iff_same_entries {K V} `{!EqDecision K}
    (strict_equal : V → V → bool)
    (lodashIsEqual : option (V → V → bool)) (h : gmap loc (list (K * V)))
    (a b : loc) (options : option CollectionEqualOptions) :
  Collection.heap_wf h →
  default false (options ≫= deep) = false →
  (∀ v w, v ∈ Collection.values (h !!! a) → w ∈ Collection.values (h !!! b) →
          strict_equal w v = true ↔ w = v) →
  Collection.equal strict_equal lodashIsEqual h a (Some b) options = Return true
  ↔ h !!! a ≡ₚ h !!! b.
Proof.
  intros Hwf Hdeep Hid. rewrite equal_unfold, Hdeep.
  pose proof (heap_wf_lookup_total h a Hwf) as Hwa.
  pose proof (heap_wf_lookup_total h b Hwf) as Hwb.
  case_bool_decide as Hsize.
  - case_bool_decide as Hsame; [by subst |].
    unfold Collection.size in Hsize.
    rewrite <- (equal_loop_identity strict_equal (h !!! a) (h !!! b))
      by (done || lia).
    split; [by intros [= ->] | by intros ->].
  - split; [done |]. intros Hperm. exfalso. apply Hsize.
    unfold Collection.size. by rewrite Hperm.
Qed.

Lemma mirror_wf : Collection.heap_wf mirror ∧ Collection.heap_wf mirror'.
Proof.
  split; intros l c; unfold mirror, mirror';
    rewrite !lookup_insert_Some, lookup_empty; unfold Collection.wf;
    intros [[_ <-]|[_ [[_ <-]|[_ ?]]]]; simpl; try done;
    apply (bool_decide_unpack _); reflexivity.
Defined.

Lemma equal_strict_iff_same_entries_witness :
  Collection.equal string_strict_equal None mirror 1%positive (Some 2%positive)
    None = Return true.
Proof.
  apply (equal_strict_iff_same_entries string_strict_equal None mirror
           1%positive 2%positive None (proj1 mirror_wf) eq_refl).
  - intros v w _ _. unfold string_strict_equal. apply bool_decide_eq_true.
  - apply Permutation_swap.
Defined.

(** X16. With strict equality, which is symmetric, [equal] is symmetric:
    [a.equal(b)] and [b.equal(a)] return the same answer. *)
Theorem equal_strict_symmetric {K V} `{!EqDecision K}
    (strict_equal : V → V → bool)
    (lodashIsEqual : option (V → V → bool)) (h : gmap loc (list (K * V)))
    (a b : loc) (options : option CollectionEqualOptions) :
  (∀ v w, strict_equal v w = strict_equal w v) →
  Collection.heap_wf h →
  default false (options ≫= deep) = false →
  Collection.equal strict_equal lodashIsEqual h a (Some b) options
  = Collection.equal strict_equal lodashIsEqual h b (Some a) options.
Proof.
  intros Hsym Hwf Hdeep. rewrite !equal_unfold, Hdeep.
  pose proof (heap_wf_lookup_total h a Hwf) as Hwa.
  pose proof (heap_wf_lookup_total h b Hwf) as Hwb.
  destruct (decide (Collection.size (h !!! a) = Collection.size (h !!! b)))
    as [Hsize|Hsize].
  - rewrite (bool_decide_true (Collection.size (h !!! a) = _)) by done.
    rewrite (bool_decide_true (Collection.size (h !!! b) = _)) by done.
    destruct (decide (a = b)) as [->|Hne]; [done |].
    rewrite (bool_decide_false (a = b)), (bool_decide_false (b = a)) by done.
    f_equal. unfold Collection.size in Hsize. apply eq_true_iff_eq.
    split; apply equal_loop_sym; (done || lia).
  - rewrite (bool_decide_false (Collection.size (h !!! a) = _)) by done.
    by rewrite (bool_decide_false (Collection.size (h !!! b) = _)).
Qed.

Lemma equal_strict_symmetric_witness :
  Collection.equal string_strict_equal None shelf 1%positive
    (Some 3%positive) None
  = Collection.equal string_strict_equal None shelf 3%positive
      (Some 1%positive) None.
Proof.
  refine (equal_strict_symmetric string_strict_equal None shelf
            1%positive 3%positive None _ shelf_wf eq_refl).
  intros v w. unfold string_strict_equal.
  apply eq_true_iff_eq. rewrite !bool_decide_eq_true. split; congruence.
Defined.

(** X28. The answer of [equal], or its error, does not depend on the
    order in which the entries of either collection were entered, for any
    strict equality, any options and any deep-equality function. *)
Theorem equal_ignores_insertion_order {K V} `{!EqDecision K}
    (strict_equal : V → V → bool)
    (lodashIsEqual : option (V → V → bool)) (h h' : gmap loc (list (K * V)))
    (a b : loc) (options : option CollectionEqualOptions) :
  Collection.heap_wf h →
  h !!! a ≡ₚ h' !!! a → h !!! b ≡ₚ h' !!! b →
  Collection.equal strict_equal lodashIsEqual h a (Some b) options
  = Collection.equal strict_equal lodashIsEqual h' a (Some b) options.
Proof.
  intros Hwf Ha Hb. rewrite !equal_unfold.
  pose proof (heap_wf_lookup_total h b Hwf) as Hwb.
  assert (Hla : length (h !!! a) = length (h' !!! a)) by (by rewrite Ha).
  assert (Hlb : length (h !!! b) = length (h' !!! b)) by (by rewrite Hb).
  unfold Collection.size. rewrite <- Hla, <- Hlb.
  repeat case_bool_decide; try done.
  destruct (default false (options ≫= deep));
    [destruct lodashIsEqual; [| done] |];
    f_equal; by apply equal_loop_Permutation.
Qed.

Lemma equal_ignores_insertion_order_witness :
  Collection.equal string_strict_equal None mirror 1%positive (Some 2%positive)
    None
  = Collection.equal string_strict_equal None mirror' 1%positive
      (Some 2%positive) None.
Proof.
  apply (equal_ignores_insertion_order string_strict_equal None mirror mirror'
           1%positive 2%positive None (proj1 mirror_wf)).
  - apply Permutation_swap.
  - reflexivity.
Defined.

(** ** Structural, again: [concat] *)

Section ConcatMore.
Context {K V : Type} `{!EqDecision K}.
Implicit Types (m c : list (K * V)) (h : gmap loc (list (K * V)))
  (cs : list (option loc)).

Lemma concat_merged h this cs :
  Collection.heap_wf h →
  (∀ l, Some l ∈ cs → l ∈ dom h) →
  (Collection.concat h this cs).1 !!! (Collection.concat h this cs).2
  = foldl (overlay h) (h !!! this) cs.
Proof.
  intros Hwf Hvalid. rewrite concat_unfold by done. simpl.
  rewrite lookup_total_insert_eq.
  by rewrite of_entries_wf by (by apply heap_wf_lookup_total).
Qed.

Lemma overlay_loop_wf_prefix h cs :
  Collection.heap_wf h →
  ∀ m, Collection.wf m →
    Collection.wf (foldl (overlay h) m cs)
    ∧ Collection.keys m `prefix_of` Collection.keys (foldl (overlay h) m cs).
Proof.
  intros Hwf. induction cs as [|[l|] cs IH]; intros m Hm; simpl; [done | |].
  - destruct (set_loop_wf_prefix (h !!! l) m Hm) as [Hwf1 Hpre1].
    destruct (IH _ Hwf1) as [Hwf2 Hpre2]. split; [done |]. by etrans.
  - by apply IH.
Qed.

Lemma overlay_loop_agree h cs :
  ∀ m, (∀ l k v, Some l ∈ cs → (k, v) ∈ h !!! l →
                 Collection.map_get m k = Some v) →
    foldl (overlay h) m cs = m.
Proof.
  induction cs as [|[l|] cs IH]; intros m Hagree; simpl; [done | |].
  - rewrite set_loop_agree by (intros k v Hin; by apply (Hagree l); [left |]).
    apply IH. intros l' k v Hl'. apply Hagree. by right.
  - apply IH. intros l' k v Hl'. apply Hagree. by right.
Qed.

Lemma overlay_lookup_is_Some h cs k :
  ∀ acc : option V,
    is_Some (foldl (λ acc collection,
               match collection with
               | None => acc
               | Some l =>
                   match Collection.map_get (h !!! l) k with
                   | Some v => Some v
                   | None => acc
                   end
               end) acc cs)
    ↔ is_Some acc
      ∨ ∃ l, Some l ∈ cs ∧ is_Some (Collection.map_get (h !!! l) k).
Proof.
  induction cs as [|[l|] cs IH]; intros acc; simpl.
  - split; [by left |]. intros [? | (l & Hl & _)]; [done |].
    by apply elem_of_nil in Hl.
  - rewrite IH. split.
    + intros [Hacc | (l' & Hl' & Hs)].
      * destruct (Collection.map_get (h !!! l) k) as [v|] eqn:Hget; [| by left].
        right. exists l. split; [left | by rewrite Hget].
      * right. exists l'. split; [by right | done].
    + intros [Hacc | (l' & Hl' & Hs)].
      * left. by destruct (Collection.map_get (h !!! l) k).
      * apply elem_of_cons in Hl' as [[= ->]|Hl'].
        -- left. destruct Hs as [v ->]. done.
        -- right. eauto.
  - rewrite IH. split.
    + intros [? | (l' & Hl' & Hs)]; [by left |]. right. exists l'.
      split; [by right | done].
    + intros [? | (l' & Hl' & Hs)]; [by left |].
      apply elem_of_cons in Hl' as [[=]|Hl']. right. eauto.
Qed.

Lemma map_has_is_Some m k :
  Collection.map_has m k = true ↔ is_Some (Collection.map_get m k).
Proof.
  unfold Collection.map_has. destruct (Collection.map_get m k); split;
    (done || eauto || by intros [? ?]).
Qed.
End ConcatMore.

(** X17. [concat] skips the elements that are [null], [undefined] or no
    [Collection]: on a sequence of such elements, and on the empty
    sequence, it does what [clone] does. *)
Theorem concat_skips_invalid {K V} `{!EqDecision K}
    (h : gmap loc (list (K * V))) (this : loc) (cs : list (option loc)) :
  Forall (λ collection, collection = None) cs →
  Collection.concat h this cs = Collection.clone h this.
Proof.
  intros Hnone. rewrite concat_unfold.
  - unfold Collection.clone, Collection.entries. f_equal. f_equal.
    induction Hnone as [|x cs -> _ IH]; [done | apply IH].
  - intros l Hl. rewrite Forall_forall in Hnone. by specialize (Hnone _ Hl).
Qed.

Lemma concat_skips_invalid_witness :
  Collection.concat shelf 1%positive [None; None] = Collection.clone shelf 1%positive.
Proof.
  apply (concat_skips_invalid shelf 1%positive [None; None]).
  repeat constructor.
Defined.

(** X18. A key that no input collection holds has in the merged collection
    the value it has in this collection (none, when this collection does
    not hold it either). *)
Theorem concat_keeps_untouched_keys {K V} `{!EqDecision K}
    (h : gmap loc (list (K * V))) (this : loc) (cs : list (option loc)) (k : K) :
  Collection.heap_wf h →
  (∀ l, Some l ∈ cs → l ∈ dom h) →
  (∀ l, Some l ∈ cs → Collection.map_get (h !!! l) k = None) →
  let result := Collection.concat h this cs in
  Collection.map_get (result.1 !!! result.2) k
  = Collection.map_get (h !!! this) k.
Proof.
  intros Hwf Hvalid Habs result. unfold result.
  rewrite concat_merged, overlay_get by done. by apply overlay_get_absent.
Qed.

Lemma shelf_dom (l : positive) (cs : list (option positive)) :
  Forall (λ c, c = None ∨ c = Some 2%positive ∨ c = Some 3%positive
               ∨ c = Some 4%positive) cs →
  Some l ∈ cs → l ∈ dom shelf.
Proof.
  rewrite Forall_forall. intros Hall Hl. apply elem_of_dom.
  destruct (Hall _ Hl) as [?|[[= ->]|[[= ->]|[= ->]]]]; [done | by eexists..].
Defined.

Lemma concat_keeps_untouched_keys_witness :
  let result := Collection.concat shelf 1%positive [Some 2%positive; Some 3%positive] in
  Collection.map_get (result.1 !!! result.2) 2 = Some "x".
Proof.
  intros result. unfold result.
  etrans; [| exact (eq_refl : Collection.map_get (shelf !!! 1%positive) 2
                               = Some "x")].
  apply (concat_keeps_untouched_keys shelf 1%positive
           [Some 2%positive; Some 3%positive] 2 shelf_wf).
  - intros l. apply shelf_dom.
    repeat (apply Forall_cons; split; [auto 6 |]). apply Forall_nil_2.
  - intros l Hl.
    apply elem_of_cons in Hl as [[= ->]|Hl]; [reflexivity |].
    apply elem_of_cons in Hl as [[= ->]|Hl]; [reflexivity |].
    by apply elem_of_nil in Hl.
Defined.

(** X19. The merged collection holds a key exactly when this collection or
    one of the input collections holds it. *)
Theorem concat_keys_union {K V} `{!EqDecision K}
    (h : gmap loc (list (K * V))) (this : loc) (cs : list (option loc)) (k : K) :
  Collection.heap_wf h →
  (∀ l, Some l ∈ cs → l ∈ dom h) →
  let result := Collection.concat h this cs in
  Collection.map_has (result.1 !!! result.2) k = true
  ↔ Collection.map_has (h !!! this) k = true
    ∨ ∃ l, Some l ∈ cs ∧ Collection.map_has (h !!! l) k = true.
Proof.
  intros Hwf Hvalid result. unfold result.
  rewrite concat_merged by done.
  rewrite !map_has_is_Some, overlay_get, overlay_lookup_is_Some by done.
  by setoid_rewrite map_has_is_Some.
Qed.

Lemma concat_keys_union_witness :
  let result := Collection.concat shelf 1%positive [Some 3%positive] in
  Collection.map_has (result.1 !!! result.2) 3 = true.
Proof.
  apply (concat_keys_union shelf 1%positive [Some 3%positive] 3 shelf_wf).
  - intros l. apply shelf_dom.
    repeat (apply Forall_cons; split; [auto 6 |]). apply Forall_nil_2.
  - right. exists 3%positive. split; [left | reflexivity].
Defined.

(** X20. The merged collection is a well-formed map in which the keys of
    this collection come first, in their order; the keys that only the
    inputs hold follow them. *)
Theorem concat_keeps_key_order {K V} `{!EqDecision K}
    (h : gmap loc (list (K * V))) (this : loc) (cs : list (option loc)) :
  Collection.heap_wf h →
  (∀ l, Some l ∈ cs → l ∈ dom h) →
  let result := Collection.concat h this cs in
  Collection.wf (result.1 !!! result.2)
  ∧ Collection.keys (h !!! this)
    `prefix_of` Collection.keys (result.1 !!! result.2)
  ∧ Collection.heap_wf result.1.
Proof.
  intros Hwf Hvalid result. unfold result.
  destruct (overlay_loop_wf_prefix h cs Hwf (h !!! this)
              (heap_wf_lookup_total h this Hwf)) as [Hwf' Hpre].
  rewrite concat_merged by done. split_and!; [done | done |].
  rewrite concat_unfold by done. simpl.
  intros l c [[_ <-]|[_ Hl]]%lookup_insert_Some; [| by eapply Hwf].
  by rewrite of_entries_wf by (by apply heap_wf_lookup_total).
Qed.

Lemma concat_keeps_key_order_witness :
  let result := Collection.concat shelf 1%positive [Some 3%positive] in
  Collection.keys (shelf !!! 1%positive)
  `prefix_of` Collection.keys (result.1 !!! result.2).
Proof.
  refine (proj1 (proj2 (concat_keeps_key_order shelf 1%positive
                          [Some 3%positive] shelf_wf _))).
  intros l. apply shelf_dom.
    repeat (apply Forall_cons; split; [auto 6 |]). apply Forall_nil_2.
Defined.

(** X21. When every entry of every input collection is already an entry of
    this collection, the merged collection is a copy of this collection;
    so is [c.concat([c])]. *)
Theorem concat_of_agreeing_inputs {K V} `{!EqDecision K}
    (h : gmap loc (list (K * V))) (this : loc) (cs : list (option loc)) :
  Collection.heap_wf h →
  (∀ l, Some l ∈ cs → l ∈ dom h) →
  (∀ l k v, Some l ∈ cs → (k, v) ∈ h !!! l → (k, v) ∈ h !!! this) →
  let result := Collection.concat h this cs in
  result.1 !!! result.2 = h !!! this.
Proof.
  intros Hwf Hvalid Hagree result. unfold result.
  rewrite concat_merged by done. apply overlay_loop_agree.
  intros l k v Hl Hin. apply map_get_elem_wf; [by apply heap_wf_lookup_total |].
  by eapply Hagree.
Qed.

Lemma concat_of_agreeing_inputs_witness :
  let result := Collection.concat shelf 3%positive [Some 3%positive; Some 4%positive] in
  result.1 !!! result.2 = [(1, "d"); (3, "y")].
Proof.
  apply (concat_of_agreeing_inputs shelf 3%positive
           [Some 3%positive; Some 4%positive] shelf_wf).
  - intros l. apply shelf_dom.
    repeat (apply Forall_cons; split; [auto 6 |]). apply Forall_nil_2.
  - intros l k v Hl.
    apply elem_of_cons in Hl as [[= ->]|Hl]; [done |].
    apply elem_of_cons in Hl as [[= ->]|Hl];
      [intros Hin; by apply elem_of_nil in Hin | by apply elem_of_nil in Hl].
Defined.

(** ** Sampler, again *)

Lemma reject_sound_draws rnd size amount fuel :
  ∀ k i random r,
    Collection.reject rnd fuel size amount k i random = Some r →
    ∀ x, x ∈ r →
      x ∈ random ∨ x ∈ (λ j, Collection.random_index rnd j size) <$> seq k fuel.
Proof.
  induction fuel as [|fuel IH]; intros k i random r; simpl.
  - case_bool_decide; [done |]. intros [= <-] x Hx. by left.
  - case_bool_decide; [| intros [= <-] x Hx; by left].
    case_bool_decide as Hin; intros Hr x Hx.
    + destruct (IH _ _ _ _ Hr x Hx) as [?|?]; [by left | right; by right].
    + destruct (IH _ _ _ _ Hr x Hx) as [[?|Hs]%elem_of_app|?];
        [by left | | right; by right].
      apply list_elem_of_singleton in Hs as ->. right. left.
Qed.

Lemma reject_needs_distinct_draws rnd size amount fuel r :
  0 ≤ amount →
  Collection.reject rnd fuel size amount 0 0 [] = Some r →
  amount ≤ Z.of_nat (distinct_draws rnd size fuel).
Proof.
  intros Ha Hr.
  destruct (reject_sound rnd size amount fuel 0%nat 0 [] r) as (Hnd & Hlen & _);
    [done | apply NoDup_nil_2 | done |].
  pose proof (reject_sound_draws rnd size amount fuel _ _ _ _ Hr) as Hmem.
  assert (length r ≤ distinct_draws rnd size fuel)%nat; [| lia].
  unfold distinct_draws, Collection.draws.
  apply submseteq_length, NoDup_submseteq; [done |].
  intros x Hx. apply elem_of_remove_dups.
  destruct (Hmem x Hx) as [Hnil|?]; [by apply elem_of_nil in Hnil | done].
Qed.

(** X22. An amount larger than the size is the size, and an amount of 1,
    of 0 or negative is no amount: [random(n)] is [random(size)] for
    [n ≥ size] and [random()] for [n ≤ 1], draw for draw. *)
Theorem random_amount_clamped rnd {K V} (c : list (K * V)) (n : Z) fuel options :
  (Collection.size c ≤ n →
   Collection.random rnd fuel c (Some n) options
   = Collection.random rnd fuel c (Some (Collection.size c)) options)
  ∧ (n ≤ 1 →
     Collection.random rnd fuel c (Some n) options
     = Collection.random rnd fuel c None options).
Proof.
  destruct c as [|e c]; [done |].
  assert (Hs : 0 < Collection.size (e :: c)) by (by apply size_pos).
  split; intros Hn; unfold Collection.random.
  - rewrite !normalize_amount_Some by lia.
    by rewrite Z.min_r, Z.min_id by lia.
  - assert (Hone : Collection.normalize_amount (Collection.size (e :: c)) (Some n)
                   = 1).
    { destruct (Z.lt_ge_cases 0 n).
      - rewrite normalize_amount_Some by lia. lia.
      - unfold Collection.normalize_amount.
        destruct (decide (n = 0)) as [->|Hne].
        + by rewrite bool_decide_false by lia.
        + rewrite bool_decide_true by lia. simpl.
          destruct (Z.ltb_spec (Collection.size (e :: c)) n); [lia |]. simpl.
          rewrite bool_decide_true by lia. simpl.
          destruct (Z.ltb_spec n 1); [done | lia]. }
    by rewrite Hone, normalize_amount_None.
Qed.

Lemma random_amount_clamped_witness :
  Collection.random quarters 0 abc (Some 8) None
  = Collection.random quarters 0 abc (Some 3) None
  ∧ Collection.random quarters 0 abc (Some (-2)) None
    = Collection.random quarters 0 abc None None.
Proof.
  split.
  - apply (random_amount_clamped quarters abc 8 0 None).
    unfold Collection.size. simpl. lia.
  - apply (random_amount_clamped quarters abc (-2) 0 None). lia.
Defined.

(** X23. Without [unique], [random] on a non-empty collection always comes
    back, needs no more draws than the amount, and returns values of the
    collection only. *)
Theorem random_plain_returns_members rnd {K V} (c : list (K * V)) amount
    options fuel :
  unit_interval rnd → c ≠ [] →
  Collection.unique_flag options = false →
  ∃ r, Collection.random rnd fuel c amount options = Some (Return r)
       ∧ ∀ x, x ∈ Collection.result_values r →
              ∃ v, x = Some v ∧ v ∈ Collection.values c.
Proof.
  intros Hu Hc Huniq.
  destruct (random_comes_back rnd fuel c amount options Hc) as [r Hr].
  { left. done. }
  exists r. split; [done |].
  eapply random_algorithm_B_members; [done | done | | done].
  unfold Collection.select_algorithm. rewrite Huniq. by rewrite andb_false_r.
Qed.

Lemma random_plain_returns_members_witness :
  ∃ r, Collection.random quarters 0 ten (Some 5) None = Some (Return r)
       ∧ ∀ x, x ∈ Collection.result_values r →
              ∃ v, x = Some v ∧ v ∈ Collection.values ten.
Proof.
  apply (random_plain_returns_members quarters ten (Some 5) None 0
           quarters_unit); done.
Defined.

(** X24. With [unique] and Algorithm B, [random] comes back within a
    number of draws exactly when these draws hit as many distinct slots as
    the amount: on draws that keep hitting fewer slots the loop goes on. *)
Theorem random_rejection_comes_back_iff rnd {K V} (c : list (K * V)) amount
    options fuel :
  c ≠ [] →
  Collection.unique_flag options = true →
  Collection.select_algorithm
    (Collection.normalize_amount (Collection.size c) amount)
    (Collection.size c) true = AlgorithmB →
  (∃ r, Collection.random rnd fuel c amount options = Some (Return r))
  ↔ Collection.normalize_amount (Collection.size c) amount
    ≤ Z.of_nat (distinct_draws rnd (length c) fuel).
Proof.
  intros Hc Huniq Hsel.
  pose proof (normalize_amount_bounds (Collection.size c) amount (size_pos c Hc)).
  split.
  - intros [r Hr]. rewrite random_nonempty in Hr by done.
    rewrite Huniq in Hr. unfold Collection.random_slots in Hr.
    unfold Collection.size in *. rewrite Hsel in Hr.
    destruct (Collection.reject _ _ _ _ _ _ _) as [slots|] eqn:Hrej; [| done].
    apply reject_needs_distinct_draws in Hrej; [done | lia].
  - intros Hd. apply random_comes_back; [done |]. right. right. done.
Qed.

Lemma random_rejection_comes_back_iff_witness :
  (∃ r, Collection.random quarters 4 ten (Some 4)
          (Some {| unique := Some true |}) = Some (Return r))
  ∧ ¬ (∃ r, Collection.random quarters 50 ten (Some 5)
              (Some {| unique := Some true |}) = Some (Return r)).
Proof.
  split.
  - apply (random_rejection_comes_back_iff quarters ten (Some 4)
             (Some {| unique := Some true |}) 4); [done | done | done |].
    vm_compute. discriminate.
  - intros Hr.
    apply (random_rejection_comes_back_iff quarters ten (Some 5)
             (Some {| unique := Some true |}) 50) in Hr; [| done..].
    vm_compute in Hr. by apply Hr.
Defined.

(** X27. With [unique] and Algorithm B, every value [random] returns is a
    value of the collection. *)
Theorem random_rejection_returns_members rnd {K V} (c : list (K * V)) amount
    options fuel r :
  unit_interval rnd → c ≠ [] →
  Collection.unique_flag options = true →
  Collection.select_algorithm
    (Collection.normalize_amount (Collection.size c) amount)
    (Collection.size c) true = AlgorithmB →
  Collection.random rnd fuel c amount options = Some (Return r) →
  ∀ x, x ∈ Collection.result_values r →
       ∃ v, x = Some v ∧ v ∈ Collection.values c.
Proof.
  intros Hu Hc Huniq Hsel Hr.
  eapply random_algorithm_B_members; [done | done | | done].
  by rewrite Huniq.
Qed.

Lemma random_rejection_returns_members_witness :
  ∃ v, Some 2 = Some v ∧ v ∈ Collection.values ten.
Proof.
  refine (random_rejection_returns_members quarters ten (Some 2)
            (Some {| unique := Some true |}) 2 (Many [Some 0; Some 2])
            quarters_unit _ eq_refl eq_refl eq_refl (Some 2) _); [done |].
  simpl. right. left.
Defined.

(** X25. With Algorithm A, the slots are distinct numbers from 0 to the
    size: at most one position of the result is [undefined] (the one that
    got the slot [size]) and every other position holds a value of the
    collection. *)
Theorem random_shuffle_one_undefined rnd {K V} (c : list (K * V)) amount
    options fuel r :
  c ≠ [] →
  Collection.select_algorithm
    (Collection.normalize_amount (Collection.size c) amount)
    (Collection.size c) (Collection.unique_flag options) = AlgorithmA →
  Collection.random rnd fuel c amount options = Some (Return r) →
  (∀ i j, Collection.result_values r !! i = Some None →
          Collection.result_values r !! j = Some None → i = j)
  ∧ (∀ x, x ∈ Collection.result_values r →
          x = None ∨ ∃ v, x = Some v ∧ v ∈ Collection.values c).
Proof.
  intros Hc Hsel Hr.
  pose proof (normalize_amount_bounds (Collection.size c) amount (size_pos c Hc))
    as Hb.
  set (a := Collection.normalize_amount (Collection.size c) amount) in *.
  set (slots := Collection.slots_A rnd (length c) (Z.to_nat a)).
  assert (Hslots : Collection.random_slots rnd fuel (length c) a
                     (Collection.unique_flag options) = Some slots).
  { unfold Collection.random_slots. unfold Collection.size in Hsel.
    by rewrite Hsel. }
  destruct (random_backed_by_slots rnd fuel c amount options slots Hc Hslots)
    as (r' & Hr' & Hv).
  assert (r' = r) as -> by congruence. rewrite Hv.
  assert (Hnd : NoDup slots).
  { apply slots_A_NoDup. unfold Collection.size in Hb. lia. }
  split.
  - intros i j Hi Hj. rewrite list_lookup_fmap in Hi, Hj.
    destruct (slots !! i) as [si|] eqn:Hsi; [| done].
    destruct (slots !! j) as [sj|] eqn:Hsj; [| done].
    simpl in Hi, Hj. injection Hi as Hi. injection Hj as Hj.
    assert (Hbound : ∀ n s, slots !! n = Some s → (s ≤ length c)%nat).
    { intros n s Hn. apply list_elem_of_lookup_2 in Hn.
      unfold slots in Hn. rewrite slots_A_take in Hn
        by (unfold Collection.size in Hb; lia).
      apply (λ H, elem_of_sublist _ _ _ H (sublist_take _ _)) in Hn.
      rewrite shuffle_Permutation in Hn. apply elem_of_seq in Hn. lia. }
    apply lookup_ge_None in Hi, Hj. unfold Collection.values in Hi, Hj.
    rewrite length_fmap in Hi, Hj.
    pose proof (Hbound _ _ Hsi). pose proof (Hbound _ _ Hsj).
    eapply NoDup_lookup; [done | done |]. rewrite Hsj. f_equal. lia.
  - intros x (s & -> & Hs)%list_elem_of_fmap.
    destruct (Collection.values c !! s) as [v|] eqn:Hlook; [| by left].
    right. exists v. split; [done |]. by eapply list_elem_of_lookup_2.
Qed.

Lemma random_shuffle_one_undefined_witness :
  Some "c" = None ∨ ∃ v, Some "c" = Some v ∧ v ∈ Collection.values abc.
Proof.
  refine (proj2 (random_shuffle_one_undefined quarters abc (Some 3)
                   (Some {| unique := Some true |}) 0
                   (Many [Some "b"; Some "c"; None]) _ _ _) (Some "c") _);
    [done | reflexivity | reflexivity |].
  simpl. right. left.
Defined.

(** ** Partitioner *)

Lemma elem_of_mjoin_sublist {A} (ls : list (list A)) (l : list A) :
  l ∈ ls → l `sublist_of` mjoin ls.
Proof.
  induction ls as [|l' ls IH]; intros Hin; [by apply elem_of_nil in Hin |].
  simpl. apply elem_of_cons in Hin as [->|Hin].
  - by apply sublist_inserts_r.
  - by apply sublist_inserts_l, IH.
Qed.

(** X26. Whatever the chunking function, as long as the chunks it makes of
    the entries put end to end are these entries, [intoChunks] returns one
    collection per chunk, holding exactly the pairs of that chunk: no pair
    is lost or merged when the chunks become collections, and the
    collections put end to end are the entries of this collection. *)
Theorem intoChunks_keeps_chunks {K V} `{!EqDecision K}
    (chunker : list (K * V) → option Z → list (list (K * V)))
    (c : list (K * V)) (size : option Z) :
  Collection.wf c →
  mjoin (chunker (Collection.entries c) size) = Collection.entries c →
  Collection.intoChunks chunker c size = chunker (Collection.entries c) size
  ∧ mjoin (Collection.intoChunks chunker c size) = Collection.entries c
  ∧ Forall Collection.wf (Collection.intoChunks chunker c size).
Proof.
  intros Hwf Hjoin.
  assert (Hchunks : Forall Collection.wf (chunker (Collection.entries c) size)).
  { apply Forall_forall. intros l Hl. unfold Collection.wf, Collection.keys in *.
    eapply sublist_NoDup; [exact Hwf |]. apply fmap_sublist.
    unfold Collection.entries in Hjoin at 2. rewrite <- Hjoin.
    by apply elem_of_mjoin_sublist. }
  assert (Hid : Collection.intoChunks chunker c size
                = chunker (Collection.entries c) size).
  { unfold Collection.intoChunks. revert Hchunks.
    generalize (chunker (Collection.entries c) size). intros ls Hls.
    induction Hls as [|l ls Hl _ IH]; [done |].
    rewrite fmap_cons, IH. by rewrite of_entries_wf. }
  rewrite Hid. done.
Qed.

Lemma intoChunks_keeps_chunks_witness :
  Collection.intoChunks two_and_rest abc None
  = [[(1, "a"); (2, "b")]; [(3, "c")]].
Proof.
  exact (proj1 (intoChunks_keeps_chunks two_and_rest abc None abc_wf eq_refl)).
Defined.
